(** * Index assignment (sql/analyzer/assign_indexes.go)

    A shallow embedding of the analyzer rule [assignIndexes] of
    go-mysql-server as vendored by gitbase, together with the properties
    of the rule that the specification states.

    Conventions of the embedding.
    - A Go function returning [(T, error)] becomes a computation in the
      monad [M]: an [Outcome] (a value, an error, or a run-time panic)
      together with the trace of catalog events (borrows and releases)
      the call performed, in order.
    - Go maps keyed by table name are [gmap string _]. Go iterates a map
      in an unspecified order; the loops below iterate [map_to_list].
      Every loop of the rule touches each key once, so the maps it builds
      do not depend on that order (only the order of releases does).
    - The rule mutates [*indexLookup] values in place and then stores the
      same pointer in a fresh map, dropping the old map; no entry is read
      through two maps, so entries are plain values here.
    - Interfaces of other packages (expressions, catalog, index driver)
      are the fields of the class [Collaborators]. *)

From Stdlib Require Import ZArith.
From stdpp Require Import base strings gmap list fin_maps.

Set Default Proof Using "Type".
Set Warnings "-register-all".

(** ** Values and expressions *)

(** The [interface{}] values an expression evaluates to.  [VTuple] is a
    Go [[]interface{}]. *)
Inductive Value :=
| VInt (z : Z)
| VStr (s : string)
| VTuple (vs : list Value).

(** The five implementations of [expression.Comparer] the rule knows. *)
Inductive Comparer :=
| Equals | LessThan | GreaterThan | LessThanOrEqual | GreaterThanOrEqual.

#[global] Instance Comparer_eq_dec : EqDecision Comparer.
Proof. solve_decision. Defined.

(** [sql.Expression].  [Opaque] stands for every variant the rule does not
    look into (arithmetic, function calls, NOT, ...). *)
Inductive Expression :=
| GetField (table name : string)
| Literal (v : Value)
| Tuple (es : list Expression)
| And (l r : Expression)
| Or (l r : Expression)
| Comparison (op : Comparer) (l r : Expression)
| Between (val lower upper : Expression)
| In (l r : Expression)
| Opaque (kind : string) (children : list Expression).

Inductive error :=
| errInvalidInRightEvaluation (v : Value)
| errCollaborator (msg : string).

(** What a Go call can do: return a value, return an error, or panic. *)
Inductive Outcome (A : Type) :=
| Ok (a : A)
| Err (e : error)
| Panic (msg : string).
Arguments Ok {A} a.
Arguments Err {A} e.
Arguments Panic {A} msg.

Definition notErr {A} (o : Outcome A) : Prop :=
  match o with Err _ => False | _ => True end.

(** ** Indexes *)

(** [sql.Index].  [isAscend] and [isDescend] say whether the value also
    implements [sql.AscendIndex] and [sql.DescendIndex]. *)
Record Index := {
  ID : string;
  Table : string;
  ExpressionHashes : list string;
  isAscend : bool;
  isDescend : bool
}.

#[global] Instance Index_eq_dec : EqDecision Index.
Proof. solve_decision. Defined.

(** Catalog events observed by a reference-counting catalog. *)
Inductive Event :=
| Borrowed (i : Index)
| Released (i : Index).

#[global] Instance Event_eq_dec : EqDecision Event.
Proof. solve_decision. Defined.

(** ** The monad of the rule *)

Definition M (A : Type) : Type := Outcome A * list Event.

Definition ret {A} (a : A) : M A := (Ok a, []).

Definition bind {A B} (m : M A) (f : A → M B) : M B :=
  match m with
  | (Ok a, t) => let '(o, t') := f a in (o, t ++ t')
  | (Err e, t) => (Err e, t)
  | (Panic s, t) => (Panic s, t)
  end.

Definition lift {A} (o : Outcome A) : M A := (o, []).
Definition fail {A} (e : error) : M A := (Err e, []).
Definition panic {A} (msg : string) : M A := (Panic msg, []).

Notation "'let*' p ':=' m 'in' k" := (bind m (fun p => k))
  (at level 10, p pattern, m at level 100, k at level 200,
   format "'[v' 'let*'  p  ':='  m  'in' '/' k ']'").

(** A monadic [for ... range] over a slice, threading the loop state. *)
Fixpoint forRange {A S} (body : S → A → M S) (l : list A) (s : S) : M S :=
  match l with
  | [] => ret s
  | x :: l' => let* s' := body s x in forRange body l' s'
  end.

(** The events of a trace that concern one index. *)
Definition borrows (i : Index) (t : list Event) : nat :=
  length (filter (λ ev, ev = Borrowed i) t).
Definition releases (i : Index) (t : list Event) : nat :=
  length (filter (λ ev, ev = Released i) t).

(** How often an index occurs in a list of indexes. *)
Definition occurrences (i : Index) (l : list Index) : nat :=
  length (filter (λ j, j = i) l).

(** Body of the loops of the form
    [for k, v := range m { if _, ok := result[k]; !ok { result[k] = v } }]. *)
Definition addIfMissing {V} (result : gmap string V) (kv : string * V)
    : gmap string V :=
  match result !! kv.1 with
  | Some _ => result
  | None => <[kv.1 := kv.2]> result
  end.

(** ** Collaborators

    The packages the rule calls into are not part of the analyzer; their
    behaviour is a parameter of the development.  A driver method that
    returns without error returns a lookup (not a nil one). *)
Class Collaborators := {
  (** [sql.IndexLookup] values built by the index driver. *)
  IndexLookup : Type;
  (** [e.Eval(sql.NewEmptyContext(), nil)]. *)
  Eval : Expression → Outcome Value;
  (** [sql.NewExpressionHash]. *)
  NewExpressionHash : Expression → string;
  (** The index the catalog holds for the expressions, if any. *)
  lookupIndex : list Expression → option Index;
  (** [Catalog.ExpressionsWithIndexes] for the current database; it
      returns expressions and no index, so it counts no borrow. *)
  ExpressionsWithIndexes : list Expression → list (list Expression);
  (** [sql.Index], [sql.AscendIndex] and [sql.DescendIndex] methods. *)
  Get : Index → list Value → Outcome IndexLookup;
  AscendGreaterOrEqual : Index → list Value → Outcome IndexLookup;
  AscendLessThan : Index → list Value → Outcome IndexLookup;
  AscendRange : Index → list Value → list Value → Outcome IndexLookup;
  DescendGreater : Index → list Value → Outcome IndexLookup;
  DescendLessOrEqual : Index → list Value → Outcome IndexLookup;
  DescendRange : Index → list Value → list Value → Outcome IndexLookup;
  (** Whether a lookup implements [sql.Mergeable], and its method. *)
  implMergeable : IndexLookup → bool;
  IsMergeable : IndexLookup → IndexLookup → bool;
  (** Whether a lookup implements [sql.SetOperations], and its methods. *)
  implSetOperations : IndexLookup → bool;
  Union : IndexLookup → IndexLookup → IndexLookup;
  Intersection : IndexLookup → IndexLookup → IndexLookup
}.

Section AssignIndexes.
Context `{Collaborators}.

(** Modelled from the spec: the catalog is not among the sources.
    [IndexByExpression] hands out the index registered for the expressions
    and counts one borrow when it does; [ReleaseIndex] gives one back. *)
Definition IndexByExpression (exprs : list Expression) : M (option Index) :=
  match lookupIndex exprs with
  | Some idx => (Ok (Some idx), [Borrowed idx])
  | None => (Ok None, [])
  end.

Definition ReleaseIndex (idx : Index) : M unit := (Ok (), [Released idx]).

(** [indexLookup]: a lookup and all the indexes involved in it. *)
Record indexLookup := {
  lookup : IndexLookup;
  indexes : list Index
}.

Abbreviation LookupMap := (gmap string indexLookup).

(** ** Classifying expressions *)

Fixpoint containsColumns (e : Expression) : bool :=
  match e with
  | GetField _ _ => true
  | Literal _ => false
  | Tuple es => existsb containsColumns es
  | And l r | Or l r | Comparison _ l r | In l r =>
      containsColumns l || containsColumns r
  | Between val lower upper =>
      containsColumns val || containsColumns lower || containsColumns upper
  | Opaque _ children => existsb containsColumns children
  end.

Definition isColumn (e : Expression) : bool :=
  match e with GetField _ _ => true | _ => false end.

Definition isEvaluable (e : Expression) : bool := negb (containsColumns e).

(** ** Combining lookups *)

Definition canMergeIndexes (a b : IndexLookup) : bool :=
  if negb (implMergeable a) then false
  else if negb (IsMergeable a b) then false
  else implSetOperations a.

(** [for _, idx := range idxs { a.Catalog.ReleaseIndex(idx) }] *)
Definition releaseAll (idxs : list Index) : M unit :=
  forRange (λ _ idx, ReleaseIndex idx) idxs ().

(** Second loop of [indexesIntersection] and of the OR case: entries of
    [right] for the tables [result] has no entry for yet. *)
Definition addMissing (right result : LookupMap) : LookupMap :=
  foldl addIfMissing result (map_to_list right).

Definition indexesIntersection (left right : LookupMap) : M LookupMap :=
  let* result :=
    forRange (λ (result : LookupMap) '(table, idx),
      match right !! table with
      | Some idx2 =>
          if canMergeIndexes (lookup idx) (lookup idx2) then
            ret (<[table := {| lookup := Intersection (lookup idx) (lookup idx2);
                               indexes := indexes idx ++ indexes idx2 |}]> result)
          else
            let* _ := releaseAll (indexes idx2) in
            ret (<[table := idx]> result)
      | None => ret (<[table := idx]> result)
      end) (map_to_list left) ∅ in
  ret (addMissing right result).

(** What the combinators do for one table, in the words of the
    specification: the entry kept for a table of the left map when the
    right map holds [idx2] for it ([merge] is [Intersection] or [Union]),
    and the indexes of the right entry that [indexesIntersection] releases. *)
Definition combined (merge : IndexLookup → IndexLookup → IndexLookup)
    (idx : indexLookup) (idx2 : option indexLookup) : indexLookup :=
  match idx2 with
  | Some idx2 =>
      if canMergeIndexes (lookup idx) (lookup idx2)
      then {| lookup := merge (lookup idx) (lookup idx2);
              indexes := indexes idx ++ indexes idx2 |}
      else idx
  | None => idx
  end.

Definition intersected := combined Intersection.
Definition united := combined Union.

Definition releasedRight (right : LookupMap) (entry : string * indexLookup)
    : list Event :=
  match right !! entry.1 with
  | Some idx2 =>
      if canMergeIndexes (lookup entry.2) (lookup idx2) then []
      else Released <$> indexes idx2
  | None => []
  end.

(** The two loops of the OR case of [getIndexes]. *)
Definition indexesUnion (leftIndexes rightIndexes : LookupMap) : LookupMap :=
  let result :=
    foldl (λ (result : LookupMap) '(table, idx),
      match rightIndexes !! table with
      | Some idx2 =>
          if canMergeIndexes (lookup idx) (lookup idx2) then
            <[table := {| lookup := Union (lookup idx) (lookup idx2);
                          indexes := indexes idx ++ indexes idx2 |}]> result
          else <[table := idx]> result
      | None => <[table := idx]> result
      end) ∅ (map_to_list leftIndexes) in
  addMissing rightIndexes result.

(** The indexes a lookup map holds, entry after entry. *)
Definition held (m : LookupMap) : list Index :=
  flat_map (λ entry, indexes entry.2) (map_to_list m).

(** The map [indexesIntersection] returns, table by table. *)
Definition intersection (left right : LookupMap) : LookupMap :=
  merge (λ idx idx2,
           match idx with
           | Some idx => Some (intersected idx idx2)
           | None => idx2
           end) left right.

(** ** Lookups for a single predicate *)

Definition comparisonIndexLookup (c : Comparer) (idx : Index)
    (values : list Value) : M (option IndexLookup) :=
  match c with
  | Equals => let* l := lift (Get idx values) in ret (Some l)
  | GreaterThan =>
      if negb (isDescend idx) then ret None
      else let* l := lift (DescendGreater idx values) in ret (Some l)
  | GreaterThanOrEqual =>
      if negb (isAscend idx) then ret None
      else let* l := lift (AscendGreaterOrEqual idx values) in ret (Some l)
  | LessThan =>
      if negb (isAscend idx) then ret None
      else let* l := lift (AscendLessThan idx values) in ret (Some l)
  | LessThanOrEqual =>
      if negb (isDescend idx) then ret None
      else let* l := lift (DescendLessOrEqual idx values) in ret (Some l)
  end.

Definition betweenIndexLookup (index : Index) (upper lower : list Value)
    : M (option IndexLookup) :=
  if isAscend index && isDescend index then
    let* ascendLookup := lift (AscendRange index lower upper) in
    let* descendLookup := lift (DescendRange index upper lower) in
    if implMergeable ascendLookup && IsMergeable ascendLookup descendLookup then
      (* ascendLookup.(sql.SetOperations): an unchecked type assertion *)
      if implSetOperations ascendLookup
      then ret (Some (Union ascendLookup descendLookup))
      else panic "interface conversion: sql.IndexLookup is not sql.SetOperations"
    else ret None
  else ret None.

(** [getComparisonIndex]: the index and the lookup for a comparison, if
    any.  The error paths release the index before returning. *)
Definition getComparisonIndex (op : Comparer) (l r : Expression)
    : M (option (Index * IndexLookup)) :=
  let '(lhs, rhs) := if negb (isEvaluable r) then (r, l) else (l, r) in
  if negb (isEvaluable lhs) && isEvaluable rhs then
    let* idx := IndexByExpression [lhs] in
    match idx with
    | Some idx =>
        match Eval rhs with
        | Ok value =>
            match comparisonIndexLookup op idx [value] with
            | (Ok (Some lookup), t) => (Ok (Some (idx, lookup)), t)
            | (Ok None, t) => (Ok None, t ++ [Released idx])
            | (Err err, t) => (Err err, t ++ [Released idx])
            | (Panic msg, t) => (Panic msg, t)
            end
        | Err err => let* _ := ReleaseIndex idx in fail err
        | Panic msg => panic msg
        end
    | None => ret None
    end
  else ret None.

(** What [getIndexes] returns for a comparison once the catalog has handed
    out [idx]: the index is released when its capability is missing
    ([None]) or its method fails, and ends up in the map otherwise. *)
Definition comparisonResult (idx : Index) (o : option (Outcome IndexLookup))
    : M LookupMap :=
  match o with
  | None => (Ok ∅, [Borrowed idx; Released idx])
  | Some (Ok l) =>
      (Ok {[ Table idx := {| lookup := l; indexes := [idx] |} ]}, [Borrowed idx])
  | Some (Err err) => (Err err, [Borrowed idx; Released idx])
  | Some (Panic msg) => (Panic msg, [Borrowed idx])
  end.

(** ** Multi-column indexes *)

(** [columnExpr].  Go keys the [used] set by the pointer of the conjunct;
    [exprPos], the position of the conjunct in the list handed to
    [getMultiColumnIndexes], stands for that pointer. *)
Record columnExpr := {
  col : Expression;
  val : option Expression;
  expr : Expression;
  exprPos : nat
}.

(** [reflect.TypeOf] of an expression, as the name of its Go type. *)
Definition typeOf (e : Expression) : string :=
  match e with
  | GetField _ _ => "*expression.GetField"
  | Literal _ => "*expression.Literal"
  | Tuple _ => "expression.Tuple"
  | And _ _ => "*expression.And"
  | Or _ _ => "*expression.Or"
  | Comparison Equals _ _ => "*expression.Equals"
  | Comparison LessThan _ _ => "*expression.LessThan"
  | Comparison GreaterThan _ _ => "*expression.GreaterThan"
  | Comparison LessThanOrEqual _ _ => "*expression.LessThanOrEqual"
  | Comparison GreaterThanOrEqual _ _ => "*expression.GreaterThanOrEqual"
  | Between _ _ _ => "*expression.Between"
  | In _ _ => "*expression.In"
  | Opaque kind _ => kind
  end.

Definition appendColumnExpr (table : string) (ce : columnExpr)
    (result : gmap string (list columnExpr)) : gmap string (list columnExpr) :=
  <[table := default [] (result !! table) ++ [ce]]> result.

Definition columnExprsByTable (exprs : list Expression)
    : gmap string (list columnExpr) :=
  foldl (λ result '(pos, e),
    match e with
    | Comparison _ l r =>
        let '(lhs, rhs) := if negb (isEvaluable r) then (r, l) else (l, r) in
        if negb (isEvaluable rhs) then result
        else match lhs with
             | GetField table _ =>
                 appendColumnExpr table
                   {| col := lhs; val := Some rhs; expr := e; exprPos := pos |} result
             | _ => result
             end
    | Between v lower upper =>
        if negb (isEvaluable upper) || negb (isEvaluable lower) || isEvaluable v
        then result
        else match v with
             | GetField table _ =>
                 appendColumnExpr table
                   {| col := v; val := None; expr := e; exprPos := pos |} result
             | _ => result
             end
    | _ => result
    end) ∅ (imap pair exprs).

(** Inner loop of [groupExpressionsByOperator]: append [e] to the first
    group whose head has the type of [e].  Groups are never empty. *)
Fixpoint appendToGroup (e : columnExpr) (result : list (list columnExpr))
    : option (list (list columnExpr)) :=
  match result with
  | [] => None
  | group :: rest =>
      match group with
      | g0 :: _ =>
          if bool_decide (typeOf (expr g0) = typeOf (expr e))
          then Some ((group ++ [e]) :: rest)
          else cons group <$> appendToGroup e rest
      | [] => cons group <$> appendToGroup e rest
      end
  end.

Definition groupExpressionsByOperator (exprs : list columnExpr)
    : list (list columnExpr) :=
  foldl (λ result e,
           match appendToGroup e result with
           | Some result' => result'
           | None => result ++ [[e]]
           end) [] exprs.

Definition findColumnByHash (cols : list columnExpr) (hash : string)
    : option columnExpr :=
  find (λ c, bool_decide (NewExpressionHash (col c) = hash)) cols.

(** The candidate selection loop of [getMultiColumnIndexes]:
    [var selected; for _, l := range exprList
       { if len(l) > len(selected) { selected = l } }]. *)
Definition selectLongest (exprList : list (list Expression)) : list Expression :=
  foldl (λ selected l, if length selected <? length l then l else selected)
        [] exprList.

(** The loop over [index.ExpressionHashes()] for comparisons.  A missing
    column makes [findColumnByHash] return nil, which the loop
    dereferences. *)
Fixpoint evalKeyValues (exprs : list columnExpr) (hashes : list string)
    (values : list Value) (used : gset nat)
    : M (list Value * option error * gset nat) :=
  match hashes with
  | [] => ret (values, None, used)
  | e :: hashes' =>
      match findColumnByHash exprs e with
      | None => panic "invalid memory address or nil pointer dereference"
      | Some c =>
          let used := {[exprPos c]} ∪ used in
          match val c with
          | None => panic "invalid memory address or nil pointer dereference"
          | Some v =>
              match Eval v with
              | Ok x => evalKeyValues exprs hashes' (values ++ [x]) used
              | Err err => ret (values, Some err, used)
              | Panic msg => panic msg
              end
          end
      end
  end.

(** The same loop for BETWEEN: lower and upper bound per key position. *)
Fixpoint evalKeyBounds (exprs : list columnExpr) (hashes : list string)
    (lowers uppers : list Value) (used : gset nat)
    : M (list Value * list Value * option error * gset nat) :=
  match hashes with
  | [] => ret (lowers, uppers, None, used)
  | e :: hashes' =>
      match findColumnByHash exprs e with
      | None => panic "invalid memory address or nil pointer dereference"
      | Some c =>
          let used := {[exprPos c]} ∪ used in
          match expr c with
          | Between _ lower upper =>
              match Eval lower with
              | Ok lo =>
                  match Eval upper with
                  | Ok up =>
                      evalKeyBounds exprs hashes' (lowers ++ [lo]) (uppers ++ [up]) used
                  | Err err => ret (lowers ++ [lo], uppers, Some err, used)
                  | Panic msg => panic msg
                  end
              | Err err => ret (lowers, uppers, Some err, used)
              | Panic msg => panic msg
              end
          | _ => panic "interface conversion: sql.Expression is not *expression.Between"
          end
      end
  end.

(** [getMultiColumnIndexForExpressions].  The Go function has named
    results [(index, lookup, err)] and can return an index together with
    an error; the result here is that triple and the updated [used] set.
    [e.col == selected[0]] compares pointers; the catalog hands back the
    expressions it was given, and the comparison is made on their hashes. *)
Definition getMultiColumnIndexForExpressions (selected : list Expression)
    (exprs : list columnExpr) (used : gset nat)
    : M (option Index * option IndexLookup * option error * gset nat) :=
  let* index := IndexByExpression selected in
  match index, selected with
  | None, _ => ret (None, None, None, used)
  | Some _, [] => panic "index out of range"
  | Some index, s0 :: _ =>
      let first :=
        find (λ e, bool_decide (NewExpressionHash (col e) = NewExpressionHash s0))
             exprs in
      match expr <$> first with
      | None => ret (Some index, None, None, used)
      | Some (Comparison op _ _) =>
          let* (values, err, used) :=
            evalKeyValues exprs (ExpressionHashes index) [] used in
          match err with
          | Some err => ret (Some index, None, Some err, used)
          | None =>
              match fst (comparisonIndexLookup op index values) with
              | Ok lookup => ret (Some index, lookup, None, used)
              | Err err => ret (Some index, None, Some err, used)
              | Panic msg => panic msg
              end
          end
      | Some (Between _ _ _) =>
          let* (lowers, uppers, err, used) :=
            evalKeyBounds exprs (ExpressionHashes index) [] [] used in
          match err with
          | Some err => ret (Some index, None, Some err, used)
          | None =>
              match fst (betweenIndexLookup index uppers lowers) with
              | Ok lookup => ret (Some index, lookup, None, used)
              | Err err => ret (Some index, None, Some err, used)
              | Panic msg => panic msg
              end
          end
      | Some _ => ret (Some index, None, None, used)
      end
  end.

(** Body of the loop over the (table, operator) groups. *)
Definition multiColumnGroup (table : string) (st : LookupMap * gset nat)
    (exps : list columnExpr) : M (LookupMap * gset nat) :=
  let '(result, used) := st in
  let cols := col <$> exps in
  let exprList := ExpressionsWithIndexes cols in
  let selected := selectLongest exprList in
  if 0 <? length selected then
    let* (index, lookup, err, used) :=
      getMultiColumnIndexForExpressions selected exps used in
    let* _ :=
      match err, lookup, index with
      | None, Some _, _ => ret ()
      | _, _, Some index => ReleaseIndex index
      | _, _, None => ret ()
      end in
    match err, lookup, index with
    | Some err, _, _ => fail err
    | None, Some lookup, Some index =>
        let entry := {| lookup := lookup; indexes := [index] |} in
        match result !! table with
        | Some _ =>
            let* result := indexesIntersection result {[table := entry]} in
            ret (result, used)
        | None => ret (<[table := entry]> result, used)
        end
    | None, _, _ => ret (result, used)
    end
  else ret (result, used).

Definition getMultiColumnIndexes (exprs : list Expression) (used : gset nat)
    : M (LookupMap * gset nat) :=
  let columnExprs := columnExprsByTable exprs in
  forRange (λ st '(table, exps),
              forRange (multiColumnGroup table) (groupExpressionsByOperator exps) st)
           (map_to_list columnExprs) (∅, used).

(** ** getIndexes *)

(** Modelled from the spec: [splitExpression] lives in another file of the
    analyzer; it splits a conjunction into its conjuncts, left to right. *)
Fixpoint splitExpression (e : Expression) : list Expression :=
  match e with
  | And l r => splitExpression l ++ splitExpression r
  | _ => [e]
  end.

(** The deferred closure of the IN and BETWEEN cases:
    [defer func() { if _, ok := result[idx.Table()]; !ok { ReleaseIndex(idx) } }()].
    It runs when the function exits, also on an error return or a panic,
    and reads the local map [result], which is still empty on every exit
    but the ones that return it. *)
Definition deferReleaseUnused (idx : Index) (body : M LookupMap) : M LookupMap :=
  let '(o, t) := body in
  let result : LookupMap := match o with Ok m => m | _ => ∅ end in
  match result !! Table idx with
  | Some _ => (o, t)
  | None => (o, t ++ [Released idx])
  end.

(** The loop over [values[1:]] of the IN case.  [None] is the early
    [return result, nil] taken when two lookups cannot be merged. *)
Fixpoint inUnion (idx : Index) (lookup : IndexLookup) (values : list Value)
    : M (option IndexLookup) :=
  match values with
  | [] => ret (Some lookup)
  | v :: values' =>
      let* lookup2 := lift (Get idx [v]) in
      if negb (canMergeIndexes lookup lookup2) then ret None
      else inUnion idx (Union lookup lookup2) values'
  end.

(** Whether the point lookups [lookups] can be united one after the other
    into [lookup], left to right, as the IN case does. *)
Fixpoint mergeChain (lookup : IndexLookup) (lookups : list IndexLookup) : bool :=
  match lookups with
  | [] => true
  | lookup2 :: lookups' =>
      canMergeIndexes lookup lookup2 && mergeChain (Union lookup lookup2) lookups'
  end.

(** Body of the loop of the AND case over the conjuncts:
    the state is the position of the conjunct and the running result. *)
Definition andConjunct (getIndexes : M LookupMap) (used : gset nat)
    (st : nat * LookupMap) : M (nat * LookupMap) :=
  let '(pos, result) := st in
  if bool_decide (pos ∈ used) then ret (S pos, result)
  else
    let* indexes := getIndexes in
    let* result := indexesIntersection result indexes in
    ret (S pos, result).

(** [getIndexes].  In the AND case Go loops over [splitExpression(e)] and
    calls itself on each conjunct that multi-column matching did not use;
    the inner [conjuncts] visits the same conjuncts, in the same order, by
    walking the conjunction. *)
Fixpoint getIndexes (e : Expression) : M LookupMap :=
  let result : LookupMap := ∅ in
  match e with
  | Or l r =>
      let* leftIndexes := getIndexes l in
      let* rightIndexes := getIndexes r in
      ret (indexesUnion leftIndexes rightIndexes)
  | In l r =>
      if negb (isEvaluable l) && isEvaluable r then
        let* idx := IndexByExpression [l] in
        match idx with
        | Some idx =>
            deferReleaseUnused idx
              (let* value := lift (Eval r) in
               match value with
               | VTuple values =>
                   match values with
                   | [] => panic "index out of range"
                   | v0 :: rest =>
                       let* lookup := lift (Get idx [v0]) in
                       let* merged := inUnion idx lookup rest in
                       match merged with
                       | None => ret result
                       | Some lookup =>
                           ret (<[Table idx := {| lookup := lookup; indexes := [idx] |}]>
                                  result)
                       end
                   end
               | _ => fail (errInvalidInRightEvaluation value)
               end)
        | None => ret result
        end
      else ret result
  | Comparison op l r =>
      let* found := getComparisonIndex op l r in
      match found with
      | None => ret result
      | Some (idx, lookup) =>
          ret (<[Table idx := {| lookup := lookup; indexes := [idx] |}]> result)
      end
  | Between v lower upper =>
      if negb (isEvaluable v) && isEvaluable upper && isEvaluable lower then
        let* idx := IndexByExpression [v] in
        match idx with
        | Some idx =>
            deferReleaseUnused idx
              (let* upper := lift (Eval upper) in
               let* lower := lift (Eval lower) in
               let* lookup := betweenIndexLookup idx [upper] [lower] in
               match lookup with
               | Some lookup =>
                   ret (<[Table idx := {| lookup := lookup; indexes := [idx] |}]>
                          result)
               | None => ret result
               end)
        | None => ret result
        end
      else ret result
  | And l r =>
      let exprs := splitExpression e in
      let* (result, used) := getMultiColumnIndexes exprs ∅ in
      let conjuncts :=
        fix conjuncts (c : Expression) (st : nat * LookupMap) : M (nat * LookupMap) :=
          match c with
          | And a b => let* st := conjuncts a st in conjuncts b st
          | _ => andConjunct (getIndexes c) used st
          end in
      let* st := conjuncts l (0, result) in
      let* st := conjuncts r st in
      ret (snd st)
  | _ => ret result
  end.

(** ** Plans *)

(** [sql.Node].  [TableNode name true] is a resolved table that implements
    [sql.Indexable], [TableNode name false] one that does not;
    [IndexableTable] is [*plan.IndexableTable]; [indexable] is the wrapper
    of this rule, holding the lookup and the wrapped table (by name);
    [Inner] is any other node with children (projection, join, ...). *)
Inductive Node :=
| TableNode (name : string) (isIndexable : bool)
| IndexableTable (name : string)
| indexable (index : indexLookup) (table : string)
| UnresolvedTable (name : string)
| Filter (expression : Expression) (child : Node)
| Inner (kind : string) (children : list Node).

(** Expressions of the model are resolved; a plan is unresolved when it
    holds an unresolved table. *)
Fixpoint Resolved (node : Node) : bool :=
  match node with
  | TableNode _ _ | IndexableTable _ | indexable _ _ => true
  | UnresolvedTable _ => false
  | Filter _ child => Resolved child
  | Inner _ children => forallb Resolved children
  end.

(** Modelled from the spec: [plan.Inspect] is not among the sources.  It
    walks the plan top-down and calls [f] on every node; the walk goes
    into the children of a node only when [f] returns true (the final
    call of [f] on nil after the children does nothing in this rule and
    is left out).  The closure variables of [f] are the state [S]; it is
    returned also when the walk panics, for the deferred calls of the
    caller. *)
Section Inspect.
Context {S : Type} (f : Node → S → S * M bool).

Fixpoint Inspect (node : Node) (s : S) : S * M unit :=
  match f node s with
  | (s, (Ok true, t)) =>
      let '(s, (o, t')) :=
        match node with
        | Filter _ child => Inspect child s
        | Inner _ children =>
            (fix inspectAll (children : list Node) (s : S) : S * M unit :=
               match children with
               | [] => (s, ret ())
               | child :: children' =>
                   match Inspect child s with
                   | (s, (Ok _, t1)) =>
                       let '(s, (o, t2)) := inspectAll children' s in
                       (s, (o, t1 ++ t2))
                   | stop => stop
                   end
               end) children s
        | _ => (s, ret ())
        end in
      (s, (o, t ++ t'))
  | (s, (Ok false, t)) => (s, (Ok (), t))
  | (s, (Err e, t)) => (s, (Err e, t))
  | (s, (Panic msg, t)) => (s, (Panic msg, t))
  end.
End Inspect.

(** Modelled from the spec: [TransformUp] of the plan nodes is not among
    the sources (only that of [indexable] is, which applies [fn] to the
    wrapper).  It rewrites bottom-up: the children first, left to right,
    then the node itself.  The map [fn] deletes from is threaded through. *)
Section TransformUp.
Context {S : Type} (fn : Node → S → Node * S).

Fixpoint TransformUp (node : Node) (s : S) : Node * S :=
  match node with
  | Filter e child =>
      let '(child, s) := TransformUp child s in
      fn (Filter e child) s
  | Inner kind children =>
      let '(children, s) :=
        (fix transformAll (children : list Node) (s : S) : list Node * S :=
           match children with
           | [] => ([], s)
           | child :: children' =>
               let '(child, s) := TransformUp child s in
               let '(children', s) := transformAll children' s in
               (child :: children', s)
           end) children s in
      fn (Inner kind children) s
  | _ => fn node s
  end.
End TransformUp.

(** The children loop of [TransformUp], on its own. *)
Fixpoint transformAll {S} (fn : Node → S → Node * S) (children : list Node)
    (s : S) : list Node * S :=
  match children with
  | [] => ([], s)
  | child :: children' =>
      let '(child, s) := TransformUp fn child s in
      let '(children', s) := transformAll fn children' s in
      (child :: children', s)
  end.

(** The children loop of [Inspect], on its own. *)
Fixpoint inspectAll {S} (f : Node → S → S * M bool) (children : list Node)
    (s : S) : S * M unit :=
  match children with
  | [] => (s, ret ())
  | child :: children' =>
      match Inspect f child s with
      | (s, (Ok _, t1)) =>
          let '(s, (o, t2)) := inspectAll f children' s in
          (s, (o, t1 ++ t2))
      | stop => stop
      end
  end.

(** The names of the indexable tables of a plan that are not wrapped yet,
    in the order [TransformUp] visits them. *)
Fixpoint tableNames (node : Node) : list string :=
  match node with
  | TableNode name true => [name]
  | Filter _ child => tableNames child
  | Inner _ children => flat_map tableNames children
  | _ => []
  end.

(** What [TransformUp wrapTable] does to the map and to the tables left
    unwrapped: [names] and [names'] are the unwrapped tables before and
    after, [m] and [m'] the map before and after. *)
Definition transformFacts (names names' : list string) (m m' : LookupMap) : Prop :=
  (∀ k, m' !! k = if decide (k ∈ names) then None else m !! k) ∧
  (∀ n, n ∈ names' → n ∈ names) ∧
  (NoDup names → ∀ n, n ∈ names' → m !! n = None).

(** The predicates [getIndexes] handles without calling itself. *)
Definition isSinglePredicate (e : Expression) : bool :=
  match e with
  | And _ _ | Or _ _ => false
  | _ => true
  end.

(** The expressions of the filters of a plan. *)
Fixpoint filterExpressions (node : Node) : list Expression :=
  match node with
  | Filter e child => e :: filterExpressions child
  | Inner _ children => flat_map filterExpressions children
  | _ => []
  end.

(** A call of [getIndexes] keeps the books: what it borrowed and did not
    release is in the map it returns; after an error nothing is held. *)
Definition balanced (r : M LookupMap) : Prop :=
  match r with
  | (Ok m, t) => ∀ i, borrows i t = releases i t + occurrences i (held m)
  | (Err _, t) => ∀ i, borrows i t = releases i t
  | (Panic _, _) => True
  end.

(** The books of the walk over the filters: the events so far and the
    lookup map gathered so far. *)
Definition walkBalanced (s : option LookupMap * option error) (t : list Event)
    : Prop :=
  ∀ i, borrows i t = releases i t + occurrences i (held (default ∅ s.1)).

(** ** assignIndexes *)

(** The callback given to [plan.Inspect]; its closure variables are
    [indexes] (nil at first) and [err]. *)
Definition inspectFilter (node : Node) (s : option LookupMap * option error)
    : (option LookupMap * option error) * M bool :=
  let '(indexes, err) := s in
  match node with
  | Filter e _ =>
      match getIndexes e with
      | (Ok result, t) =>
          match indexes with
          | Some indexes =>
              let '(o, t') := indexesIntersection indexes result in
              match o with
              | Ok indexes => ((Some indexes, None), (Ok true, t ++ t'))
              | Err e => ((Some indexes, None), (Err e, t ++ t'))
              | Panic msg => ((Some indexes, None), (Panic msg, t ++ t'))
              end
          | None => ((Some result, None), (Ok true, t))
          end
      | (Err err, t) => ((indexes, Some err), (Ok false, t))
      | (Panic msg, t) => ((indexes, err), (Panic msg, t))
      end
  | _ => (s, ret true)
  end.

(** The function given to [TransformUp]: wrap an indexable table that has
    a lookup, and take the lookup out of the map. *)
Definition wrapTable (node : Node) (indexes : LookupMap) : Node * LookupMap :=
  match node with
  | TableNode name true =>
      match indexes !! name with
      | Some index => (indexable index name, delete name indexes)
      | None => (node, indexes)
      end
  | _ => (node, indexes)
  end.

(** The deferred closure of [assignIndexes]: release every index still in
    [indexes] when the function exits. *)
Definition releaseUnused (unused : option LookupMap) : list Event :=
  match unused with
  | None => []
  | Some m => flat_map (λ '(_, i), Released <$> indexes i) (map_to_list m)
  end.

(** [assignIndexes].  [Err err] is the Go result [(nil, err)]. *)
Definition assignIndexes (node : Node) : M Node :=
  if negb (Resolved node) then ret node
  else
    let '((indexes, err), (o, t)) := Inspect inspectFilter node (None, None) in
    match o, err with
    | Ok _, Some err => (Err err, t ++ releaseUnused indexes)
    | Ok _, None =>
        let '(node, remaining) := TransformUp wrapTable node (default ∅ indexes) in
        (Ok node, t ++ releaseUnused (const remaining <$> indexes))
    | Err e, _ => (Err e, t ++ releaseUnused indexes)
    | Panic msg, _ => (Panic msg, t ++ releaseUnused indexes)
    end.

(** The indexes a plan holds inside its [indexable] wrappers. *)
Fixpoint embedded (node : Node) : list Index :=
  match node with
  | indexable index _ => indexes index
  | Filter _ child => embedded child
  | Inner _ children => flat_map embedded children
  | _ => []
  end.

(** ** What the OR case keeps and drops *)

(** The indexes of the entry of [right] that the OR case drops for a table
    of the left map, without releasing them: the ones that
    [indexesIntersection] releases in the same place. *)
Definition droppedRight (right : LookupMap) (entry : string * indexLookup)
    : list Index :=
  match right !! entry.1 with
  | Some idx2 =>
      if canMergeIndexes (lookup entry.2) (lookup idx2) then []
      else indexes idx2
  | None => []
  end.

(** The map the two loops of the OR case build, table by table. *)
Definition disjunction (left right : LookupMap) : LookupMap :=
  merge (λ idx idx2,
           match idx with
           | Some idx => Some (united idx idx2)
           | None => idx2
           end) left right.

(** ** What the rewrite changes *)

(** The plan under the wrappers of the rule: every [indexable] wrapper
    replaced by the indexable table it wraps. *)
Fixpoint unwrap (node : Node) : Node :=
  match node with
  | indexable _ table => TableNode table true
  | Filter e child => Filter e (unwrap child)
  | Inner kind children => Inner kind (map unwrap children)
  | _ => node
  end.

(** The wrappers of a plan: the table and the lookup of each, in the
    order of the plan. *)
Fixpoint wrappers (node : Node) : list (string * indexLookup) :=
  match node with
  | indexable index table => [(table, index)]
  | Filter _ child => wrappers child
  | Inner _ children => flat_map wrappers children
  | _ => []
  end.

End AssignIndexes.

Arguments indexLookup {_}.
Arguments Node {_}.

(** * A mock catalog and index driver

    A deterministic instance of the collaborators, used to run the rule
    on concrete plans.  Lookups are the terms the driver methods build. *)
Module Mock.

Inductive Lookup :=
| LGet (i : Index) (vs : list Value)
| LAscendGreaterOrEqual (i : Index) (vs : list Value)
| LAscendLessThan (i : Index) (vs : list Value)
| LAscendRange (i : Index) (lower upper : list Value)
| LDescendGreater (i : Index) (vs : list Value)
| LDescendLessOrEqual (i : Index) (vs : list Value)
| LDescendRange (i : Index) (upper lower : list Value)
| LUnion (a b : Lookup)
| LIntersection (a b : Lookup).

(** The index a lookup reads (the leftmost one of a combination). *)
Fixpoint indexOf (l : Lookup) : Index :=
  match l with
  | LGet i _ | LAscendGreaterOrEqual i _ | LAscendLessThan i _
  | LAscendRange i _ _ | LDescendGreater i _ | LDescendLessOrEqual i _
  | LDescendRange i _ _ => i
  | LUnion a _ | LIntersection a _ => indexOf a
  end.

Definition hash (e : Expression) : string :=
  match e with
  | GetField table name => table +:+ "." +:+ name
  | _ => typeOf e
  end.

(** Literals and tuples of literals evaluate; nothing else does. *)
Fixpoint eval (e : Expression) : Outcome Value :=
  match e with
  | Literal v => Ok v
  | Tuple es =>
      match
        foldr (λ e acc,
                 match eval e, acc with
                 | Ok v, Ok vs => Ok (v :: vs)
                 | Ok _, stop => stop
                 | Err err, _ => Err err
                 | Panic msg, _ => Panic msg
                 end) (Ok []) es
      with
      | Ok vs => Ok (VTuple vs)
      | Err err => Err err
      | Panic msg => Panic msg
      end
  | _ => Err (errCollaborator "cannot evaluate")
  end.

(** The catalog: the index, if any, whose key is exactly the hashes of the
    given expressions. *)
Definition indexFor (catalog : list Index) (exprs : list Expression)
    : option Index :=
  find (λ i, bool_decide (ExpressionHashes i = hash <$> exprs)) catalog.

(** For every multi-column index whose key columns are all among [exprs],
    the expressions matching its key, in key order. *)
Definition expressionsWithIndexes (catalog : list Index)
    (exprs : list Expression) : list (list Expression) :=
  omap (λ i,
          if bool_decide (1 < length (ExpressionHashes i)) then
            mapM (λ h, find (λ e, bool_decide (hash e = h)) exprs)
                 (ExpressionHashes i)
          else None) catalog.

(** A driver over [catalog] whose lookups all implement [sql.Mergeable];
    [mergeable] is their [IsMergeable] and [setOperations] says which of
    them implement [sql.SetOperations]. *)
Definition collaborators (catalog : list Index)
    (mergeable : Lookup → Lookup → bool) (setOperations : Lookup → bool)
    : Collaborators := {|
  IndexLookup := Lookup;
  Eval := eval;
  NewExpressionHash := hash;
  lookupIndex := indexFor catalog;
  ExpressionsWithIndexes := expressionsWithIndexes catalog;
  Get i vs := Ok (LGet i vs);
  AscendGreaterOrEqual i vs := Ok (LAscendGreaterOrEqual i vs);
  AscendLessThan i vs := Ok (LAscendLessThan i vs);
  AscendRange i lower upper := Ok (LAscendRange i lower upper);
  DescendGreater i vs := Ok (LDescendGreater i vs);
  DescendLessOrEqual i vs := Ok (LDescendLessOrEqual i vs);
  DescendRange i upper lower := Ok (LDescendRange i upper lower);
  implMergeable _ := true;
  IsMergeable := mergeable;
  implSetOperations := setOperations;
  Union := LUnion;
  Intersection := LIntersection
|}.

(** Lookups are mergeable when they read the same index. *)
Definition sameIndex (a b : Lookup) : bool :=
  bool_decide (indexOf a = indexOf b).

Definition idx_a : Index :=
  {| ID := "idx_a"; Table := "t"; ExpressionHashes := ["t.a"];
     isAscend := true; isDescend := true |}.
Definition idx_b : Index :=
  {| ID := "idx_b"; Table := "t"; ExpressionHashes := ["t.b"];
     isAscend := true; isDescend := true |}.
Definition idx_u : Index :=
  {| ID := "idx_u"; Table := "u"; ExpressionHashes := ["u.b"];
     isAscend := true; isDescend := true |}.

Definition catalog : list Index := [idx_a; idx_b; idx_u].

Definition int (z : Z) : Expression := Literal (VInt z).
Definition str (x : string) : Expression := Literal (VStr x).
Definition t_a : Expression := GetField "t" "a".
Definition t_b : Expression := GetField "t" "b".
Definition u_b : Expression := GetField "u" "b".

(** A driver whose point lookups on strings cannot be merged into a
    lookup on numbers. *)
Definition pointGetOfString (l : Lookup) : bool :=
  match l with
  | LGet _ [VStr _] => true
  | _ => false
  end.

Definition typedMergeable (a b : Lookup) : bool :=
  sameIndex a b && negb (pointGetOfString b).

Definition typed : Collaborators :=
  collaborators catalog typedMergeable (λ _, true).

(** A driver whose range lookups implement [sql.Mergeable] but not
    [sql.SetOperations]. *)
Definition isRange (l : Lookup) : bool :=
  match l with
  | LAscendRange _ _ _ | LDescendRange _ _ _ => true
  | _ => false
  end.

Definition plainRanges : Collaborators :=
  collaborators catalog sameIndex (λ l, negb (isRange l)).

(** The usual driver: every lookup implements [sql.SetOperations]. *)
Definition standard : Collaborators :=
  collaborators catalog sameIndex (λ _, true).

(** A catalog with one composite index on [t.a, t.b]. *)
Definition idx_ab : Index :=
  {| ID := "idx_ab"; Table := "t"; ExpressionHashes := ["t.a"; "t.b"];
     isAscend := true; isDescend := true |}.

Definition composite : Collaborators :=
  collaborators [idx_ab] sameIndex (λ _, true).

(** The entry holding the composite point lookup [(t.a, t.b) = (1, 2)]. *)
Definition get_ab_1_2 : @indexLookup composite :=
  {| lookup := LGet idx_ab [VInt 1; VInt 2] : @IndexLookup composite;
     indexes := [idx_ab] |}.

(** The entry holding the point lookup [t.a = 1]. *)
Definition get_a_1 : @indexLookup standard :=
  {| lookup := LGet idx_a [VInt 1] : @IndexLookup standard; indexes := [idx_a] |}.

End Mock.

(** * Statements of the specification that the rule does not meet *)

(** Borrow conservation for one run: every index is borrowed as often as
    it is released by the rule or embedded in the plan returned. *)
Definition conserved `{Collaborators} (trace : list Event) (plan : Node) : Prop :=
  ∀ i, borrows i trace = releases i trace + occurrences i (embedded plan).

(** Error atomicity, as the specification words it, for a plan with the
    filter at its root: when [getIndexes] fails on the filter, the rule
    returns the input plan and has released whatever it borrowed. *)
Definition errorAtomic `{Collaborators} (e : Expression) (child : Node) : Prop :=
  ∀ err te,
    getIndexes e = (Err err, te) →
    ∃ t, assignIndexes (Filter e child) = (Ok (Filter e child), t) ∧
         ∀ i, borrows i t = releases i t.

(** Idempotence, as the specification words it: running the rule on its
    own result gives that result again. *)
Definition idempotent `{Collaborators} (node : Node) : Prop :=
  ∀ node' t,
    assignIndexes node = (Ok node', t) →
    ∃ t', assignIndexes node' = (Ok node', t').

(** IN early stop, as the specification words it: the map returned for
    [l IN r] holds the partial union [partial] for the table of [idx], and
    [idx] is not released. *)
Definition inKeepsPartialUnion `{Collaborators} (l r : Expression)
    (idx : Index) (partial : IndexLookup) : Prop :=
  ∃ result t,
    getIndexes (In l r) = (Ok result, t) ∧
    result !! Table idx = Some {| lookup := partial; indexes := [idx] |} ∧
    releases idx t = 0.

(** Safe degradation under OR, as the specification words it: a table
    that either branch has no lookup for has none in the map of the OR. *)
Definition orDegrades `{Collaborators} (l r : Expression) : Prop :=
  ∀ leftIndexes rightIndexes result tl tr t table,
    getIndexes l = (Ok leftIndexes, tl) →
    getIndexes r = (Ok rightIndexes, tr) →
    getIndexes (Or l r) = (Ok result, t) →
    leftIndexes !! table = None ∨ rightIndexes !! table = None →
    result !! table = None.

Abbreviation LookupMap := (gmap string indexLookup).

(** * Properties of the rule *)

(** ** Loops over maps *)

Lemma bind_ret_l {A B} (a : A) (f : A → M B) : bind (ret a) f = f a.
Proof. unfold bind, ret. destruct (f a) as [o t]. reflexivity. Qed.

(** A loop whose body always succeeds, and whose events depend on the
    element only, is a fold together with the events of its elements. *)
Lemma forRange_pure {A S} (body : S → A → M S) (step : S → A → S)
    (ev : A → list Event) (l : list A) (s : S) :
  (∀ s x, body s x = (Ok (step s x), ev x)) →
  forRange body l s = (Ok (foldl step s l), flat_map ev l).
Proof.
  intros Hbody. revert s.
  induction l as [|x l IH]; intros s; simpl; [reflexivity|].
  rewrite Hbody. simpl. rewrite IH. reflexivity.
Qed.

Section MapLoops.
Context {V W : Type}.
Implicit Types (l : list (string * V)) (acc : gmap string W).

(** Loops of the form [for k, v := range m { result[k] = g(k, v) }]. *)
Lemma insert_loop_other (body : gmap string W → string * V → gmap string W)
    (g : string → V → W) l acc k :
  (∀ acc k v, body acc (k, v) = <[k := g k v]> acc) →
  k ∉ l.*1 → foldl body acc l !! k = acc !! k.
Proof.
  intros Hbody. revert acc.
  induction l as [|[k0 v0] l IH]; intros acc Hk; simpl; [reflexivity|].
  rewrite fmap_cons, not_elem_of_cons in Hk. destruct Hk as [Hne Hk].
  rewrite IH by assumption. rewrite Hbody.
  apply lookup_insert_ne. simpl in Hne. congruence.
Qed.

Lemma insert_loop_elem (body : gmap string W → string * V → gmap string W)
    (g : string → V → W) l acc k v :
  (∀ acc k v, body acc (k, v) = <[k := g k v]> acc) →
  NoDup l.*1 → (k, v) ∈ l → foldl body acc l !! k = Some (g k v).
Proof.
  intros Hbody. revert acc.
  induction l as [|[k0 v0] l IH]; intros acc Hnd Hin; simpl.
  - inversion Hin.
  - rewrite fmap_cons, NoDup_cons in Hnd. destruct Hnd as [Hfresh Hnd].
    apply elem_of_cons in Hin as [Heq|Hin].
    + inversion Heq; subst k0 v0.
      rewrite (insert_loop_other body g) by assumption.
      rewrite Hbody. apply lookup_insert_eq.
    + apply IH; assumption.
Qed.
End MapLoops.

Section MapLoops2.
Context {V : Type}.
Implicit Types (l : list (string * V)) (acc : gmap string V).

(** Loops with the body [addIfMissing]. *)
Lemma addIfMissing_other acc k0 v0 k :
  k ≠ k0 → addIfMissing acc (k0, v0) !! k = acc !! k.
Proof.
  intros Hne. unfold addIfMissing. simpl.
  destruct (acc !! k0); [reflexivity|]. apply lookup_insert_ne. congruence.
Qed.

Lemma missing_loop_other l acc k :
  k ∉ l.*1 → foldl addIfMissing acc l !! k = acc !! k.
Proof.
  revert acc. induction l as [|[k0 v0] l IH]; intros acc Hk; simpl; [reflexivity|].
  rewrite fmap_cons, not_elem_of_cons in Hk. destruct Hk as [Hne Hk].
  rewrite IH by assumption. apply addIfMissing_other. exact Hne.
Qed.

Lemma missing_loop_elem l acc k v :
  NoDup l.*1 → (k, v) ∈ l →
  foldl addIfMissing acc l !! k = Some (default v (acc !! k)).
Proof.
  revert acc. induction l as [|[k0 v0] l IH]; intros acc Hnd Hin; simpl.
  - inversion Hin.
  - rewrite fmap_cons, NoDup_cons in Hnd. destruct Hnd as [Hfresh Hnd].
    apply elem_of_cons in Hin as [Heq|Hin].
    + inversion Heq; subst k0 v0.
      rewrite missing_loop_other by assumption.
      unfold addIfMissing. simpl.
      destruct (acc !! k) eqn:E; simpl; [assumption|apply lookup_insert_eq].
    + rewrite IH by assumption. f_equal. f_equal.
      apply addIfMissing_other.
      intros ->. apply Hfresh. apply (list_elem_of_fmap_2 fst _ _ Hin).
  Qed.

(** The same two facts for a loop over the entries of a map. *)
Lemma missing_loop_map (m acc : gmap string V) k :
  foldl addIfMissing acc (map_to_list m) !! k
  = match acc !! k with Some x => Some x | None => m !! k end.
Proof.
  destruct (m !! k) as [v|] eqn:E.
  - rewrite (missing_loop_elem _ _ k v).
    + destruct (acc !! k); reflexivity.
    + apply NoDup_fst_map_to_list.
    + apply elem_of_map_to_list. exact E.
  - rewrite missing_loop_other; [destruct (acc !! k); reflexivity|].
    intros Hin. apply list_elem_of_fmap in Hin as [[k' v] [-> Hin]].
    apply elem_of_map_to_list in Hin. simpl in E. congruence.
Qed.
End MapLoops2.

Section Combinators.
Context `{Collaborators}.

Lemma releaseAll_trace (idxs : list Index) :
  releaseAll idxs = (Ok (), Released <$> idxs).
Proof.
  unfold releaseAll.
  induction idxs as [|idx idxs IH]; simpl; [reflexivity|].
  rewrite IH. reflexivity.
Qed.

Lemma indexesIntersection_unfold (left right : LookupMap) :
  indexesIntersection left right
  = (Ok (addMissing right
           (foldl (λ result entry,
                     <[entry.1 := intersected entry.2 (right !! entry.1)]> result)
                  ∅ (map_to_list left))),
     flat_map (releasedRight right) (map_to_list left)).
Proof.
  unfold indexesIntersection.
  erewrite forRange_pure.
  - unfold bind, ret. rewrite app_nil_r. reflexivity.
  - intros result [table idx]. unfold intersected, combined, releasedRight. simpl.
    destruct (right !! table) as [idx2|]; [|reflexivity].
    destruct (canMergeIndexes _ _); [reflexivity|].
    rewrite releaseAll_trace. simpl. rewrite app_nil_r. reflexivity.
Qed.

Lemma combine_loop_lookup (merge : IndexLookup → IndexLookup → IndexLookup)
    (left right : LookupMap) (table : string) :
  addMissing right
    (foldl (λ result entry,
              <[entry.1 := combined merge entry.2 (right !! entry.1)]> result)
           ∅ (map_to_list left)) !! table
  = match left !! table with
    | Some idx => Some (combined merge idx (right !! table))
    | None => right !! table
    end.
Proof.
  unfold addMissing. rewrite missing_loop_map.
  destruct (left !! table) as [idx|] eqn:E.
  - erewrite (insert_loop_elem _ (λ k v, combined merge v (right !! k))).
    + reflexivity.
    + intros acc k v. reflexivity.
    + apply NoDup_fst_map_to_list.
    + apply elem_of_map_to_list. exact E.
  - erewrite (insert_loop_other _ (λ k v, combined merge v (right !! k))).
    + rewrite lookup_empty. reflexivity.
    + intros acc k v. reflexivity.
    + intros Hin. apply list_elem_of_fmap in Hin as [[k' v] [-> Hin]].
      apply elem_of_map_to_list in Hin. simpl in E. congruence.
Qed.

Lemma canMergeIndexes_spec (a b : IndexLookup) :
  canMergeIndexes a b = implMergeable a && IsMergeable a b && implSetOperations a.
Proof.
  unfold canMergeIndexes.
  destruct (implMergeable a), (IsMergeable a b); reflexivity.
Qed.

Lemma elem_of_releasedRight (left right : LookupMap) (i : Index) :
  Released i ∈ flat_map (releasedRight right) (map_to_list left) ↔
  ∃ table idx idx2,
    left !! table = Some idx ∧ right !! table = Some idx2 ∧
    canMergeIndexes (lookup idx) (lookup idx2) = false ∧ i ∈ indexes idx2.
Proof.
  rewrite list_elem_of_In, in_flat_map. split.
  - intros [[table idx] [Hin Hrel]].
    apply list_elem_of_In, elem_of_map_to_list in Hin.
    unfold releasedRight in Hrel. simpl in Hrel.
    destruct (right !! table) as [idx2|] eqn:E; [|inversion Hrel].
    destruct (canMergeIndexes _ _) eqn:Em; [inversion Hrel|].
    apply list_elem_of_In, list_elem_of_fmap in Hrel as [i' [Heq Hi]].
    inversion Heq; subst i'.
    exists table, idx, idx2. auto.
  - intros (table & idx & idx2 & Hl & Hr & Hm & Hi).
    exists (table, idx). split.
    + apply list_elem_of_In, elem_of_map_to_list. exact Hl.
    + unfold releasedRight. simpl. rewrite Hr, Hm.
      apply list_elem_of_In, list_elem_of_fmap. exists i. auto.
Qed.

(** C7. Intersection policy: [indexesIntersection] always returns a map;
    for a table present in both inputs the map holds the [Intersection]
    of the two lookups with the index lists concatenated when the lookups
    are mergeable (the left one implements [Mergeable], its [IsMergeable]
    accepts the right one, and it implements [SetOperations]) and the
    left entry unchanged otherwise; a table present in one input only
    keeps its entry.  The call releases exactly the indexes of the right
    entries it drops, each once, and borrows nothing. *)
Theorem indexesIntersection_policy (left right : LookupMap) :
  ∃ result trace,
    indexesIntersection left right = (Ok result, trace) ∧
    (∀ table,
       result !! table =
       match left !! table, right !! table with
       | Some idx, Some idx2 =>
           if implMergeable (lookup idx) && IsMergeable (lookup idx) (lookup idx2)
              && implSetOperations (lookup idx)
           then Some {| lookup := Intersection (lookup idx) (lookup idx2);
                        indexes := indexes idx ++ indexes idx2 |}
           else Some idx
       | Some idx, None => Some idx
       | None, entry => entry
       end) ∧
    trace = flat_map (releasedRight right) (map_to_list left) ∧
    (∀ i, Released i ∈ trace ↔
          ∃ table idx idx2,
            left !! table = Some idx ∧ right !! table = Some idx2 ∧
            canMergeIndexes (lookup idx) (lookup idx2) = false ∧
            i ∈ indexes idx2) ∧
    (∀ i, Borrowed i ∉ trace).
Proof.
  eexists _, _. split; [apply indexesIntersection_unfold|].
  split; [|split; [reflexivity|split]].
  - intros table. unfold intersected. rewrite combine_loop_lookup.
    destruct (left !! table) as [idx|]; [|reflexivity].
    unfold combined. destruct (right !! table) as [idx2|]; [|reflexivity].
    rewrite canMergeIndexes_spec.
    destruct (_ && _); reflexivity.
  - intros i. apply elem_of_releasedRight.
  - intros i Hin. apply list_elem_of_In, in_flat_map in Hin as [[table idx] [_ Hin]].
    unfold releasedRight in Hin. simpl in Hin.
    destruct (right !! table) as [idx2|]; [|inversion Hin].
    destruct (canMergeIndexes _ _); [inversion Hin|].
    apply list_elem_of_In, list_elem_of_fmap in Hin as [i' [Heq _]]. discriminate.
Qed.

Lemma foldl_ext {A B} (f g : A → B → A) (l : list B) (a : A) :
  (∀ a b, f a b = g a b) → foldl f a l = foldl g a l.
Proof.
  intros Hfg. revert a. induction l as [|b l IH]; intros a; simpl; [reflexivity|].
  rewrite Hfg. apply IH.
Qed.

Lemma indexesUnion_lookup (leftIndexes rightIndexes : LookupMap) (table : string) :
  indexesUnion leftIndexes rightIndexes !! table
  = match leftIndexes !! table with
    | Some idx => Some (united idx (rightIndexes !! table))
    | None => rightIndexes !! table
    end.
Proof.
  unfold indexesUnion, united.
  rewrite <- combine_loop_lookup. f_equal. f_equal.
  apply foldl_ext. intros result [tbl idx]. unfold combined. simpl.
  destruct (rightIndexes !! tbl) as [idx2|]; [|reflexivity].
  destruct (canMergeIndexes _ _); reflexivity.
Qed.

Lemma getIndexes_Or (l r : Expression) :
  getIndexes (Or l r)
  = (let* leftIndexes := getIndexes l in
     let* rightIndexes := getIndexes r in
     ret (indexesUnion leftIndexes rightIndexes)).
Proof. reflexivity. Qed.

(** C2 (amended). Under OR a table that only one branch has a lookup for
    keeps the entry of that branch unchanged: when both branches return a
    map, so does the OR, and for every table the right branch has no
    lookup for the map of the OR holds what the left branch holds, and
    the other way round.  So the map of the OR lacks a lookup for a table
    only when both branches lack one. *)
Theorem getIndexes_Or_single_branch (l r : Expression)
    (leftIndexes rightIndexes : LookupMap) (tl tr : list Event) :
  getIndexes l = (Ok leftIndexes, tl) →
  getIndexes r = (Ok rightIndexes, tr) →
  ∃ result,
    getIndexes (Or l r) = (Ok result, tl ++ tr) ∧
    ∀ table,
      (rightIndexes !! table = None → result !! table = leftIndexes !! table) ∧
      (leftIndexes !! table = None → result !! table = rightIndexes !! table) ∧
      (result !! table = None ↔
         leftIndexes !! table = None ∧ rightIndexes !! table = None).
Proof.
  intros Hl Hr. exists (indexesUnion leftIndexes rightIndexes). split.
  - rewrite getIndexes_Or, Hl, Hr. simpl. rewrite app_nil_r. reflexivity.
  - intros table. rewrite indexesUnion_lookup.
    destruct (leftIndexes !! table) as [idx|] eqn:El.
    + split; [|split].
      * intros ->. reflexivity.
      * discriminate.
      * split; [discriminate|]. intros [? _]. discriminate.
    + split; [|split].
      * intros ->. reflexivity.
      * reflexivity.
      * split; auto. intros [_ ?]. assumption.
Qed.

(** *** Conservation through [indexesIntersection] *)

Lemma occurrences_app (i : Index) (l1 l2 : list Index) :
  occurrences i (l1 ++ l2) = occurrences i l1 + occurrences i l2.
Proof. unfold occurrences. rewrite filter_app, length_app. reflexivity. Qed.

Lemma occurrences_perm (i : Index) (l1 l2 : list Index) :
  l1 ≡ₚ l2 → occurrences i l1 = occurrences i l2.
Proof. intros Hp. unfold occurrences. rewrite Hp. reflexivity. Qed.

Lemma releases_app (i : Index) (t1 t2 : list Event) :
  releases i (t1 ++ t2) = releases i t1 + releases i t2.
Proof. unfold releases. rewrite filter_app, length_app. reflexivity. Qed.

Lemma borrows_app (i : Index) (t1 t2 : list Event) :
  borrows i (t1 ++ t2) = borrows i t1 + borrows i t2.
Proof. unfold borrows. rewrite filter_app, length_app. reflexivity. Qed.

Lemma releases_perm (i : Index) (t1 t2 : list Event) :
  t1 ≡ₚ t2 → releases i t1 = releases i t2.
Proof. intros Hp. unfold releases. rewrite Hp. reflexivity. Qed.

Lemma releases_Released (i : Index) (l : list Index) :
  releases i (Released <$> l) = occurrences i l.
Proof.
  unfold releases, occurrences. induction l as [|j l IH]; [reflexivity|].
  rewrite fmap_cons, !filter_cons.
  destruct (decide (Released j = Released i)) as [Heq|Hne];
    destruct (decide (j = i)) as [Heq'|Hne']; simpl; try congruence.
Qed.

Lemma borrows_Released (i : Index) (l : list Index) :
  borrows i (Released <$> l) = 0.
Proof.
  unfold borrows. induction l as [|j l IH]; [reflexivity|].
  rewrite fmap_cons, filter_cons.
  destruct (decide (Released j = Borrowed i)); [discriminate|exact IH].
Qed.

Lemma held_empty : held ∅ = [].
Proof. unfold held. rewrite map_to_list_empty. reflexivity. Qed.

Lemma held_insert (m : LookupMap) (k : string) (e : indexLookup) :
  m !! k = None → held (<[k := e]> m) ≡ₚ indexes e ++ held m.
Proof.
  intros Hnone. unfold held. rewrite (map_to_list_insert m k e Hnone). reflexivity.
Qed.

Lemma held_lookup (m : LookupMap) (k : string) (i : Index) :
  occurrences i (held m)
  = occurrences i (from_option indexes [] (m !! k)) + occurrences i (held (delete k m)).
Proof.
  destruct (m !! k) as [e|] eqn:E; simpl.
  - rewrite <- occurrences_app. apply occurrences_perm.
    rewrite <- held_insert by apply lookup_delete_eq.
    rewrite insert_delete_id by exact E. reflexivity.
  - rewrite delete_id by exact E. reflexivity.
Qed.

Lemma flat_map_ext_Forall {A B} (f g : A → list B) (l : list A) :
  Forall (λ x, f x = g x) l → flat_map f l = flat_map g l.
Proof.
  induction 1 as [|x l Hx _ IH]; simpl; [reflexivity|]. rewrite Hx, IH. reflexivity.
Qed.

Lemma indexesIntersection_result (left right : LookupMap) :
  indexesIntersection left right
  = (Ok (intersection left right), flat_map (releasedRight right) (map_to_list left)).
Proof.
  rewrite indexesIntersection_unfold. f_equal. f_equal.
  apply map_eq. intros table. unfold intersected.
  rewrite combine_loop_lookup. unfold intersection. rewrite lookup_merge.
  destruct (left !! table), (right !! table); reflexivity.
Qed.

Lemma intersection_empty (right : LookupMap) : intersection ∅ right = right.
Proof.
  apply map_eq. intros table. unfold intersection.
  rewrite lookup_merge, lookup_empty. destruct (right !! table); reflexivity.
Qed.

Lemma intersection_insert (left right : LookupMap) (k : string) (e : indexLookup) :
  intersection (<[k := e]> left) right
  = <[k := intersected e (right !! k)]> (intersection left (delete k right)).
Proof.
  apply map_eq. intros table. unfold intersection.
  destruct (decide (table = k)) as [->|Hne].
  - rewrite lookup_merge, !lookup_insert_eq. reflexivity.
  - rewrite lookup_insert_ne by congruence.
    rewrite !lookup_merge, lookup_insert_ne, lookup_delete_ne by congruence.
    reflexivity.
Qed.

Lemma borrows_releasedRight (left right : LookupMap) (i : Index) :
  borrows i (flat_map (releasedRight right) (map_to_list left)) = 0.
Proof.
  induction (map_to_list left) as [|[k e] l IH]; [reflexivity|].
  simpl. rewrite borrows_app, IH. unfold releasedRight. simpl.
  destruct (right !! k) as [e2|]; [|reflexivity].
  destruct (canMergeIndexes _ _); [reflexivity|].
  rewrite borrows_Released. reflexivity.
Qed.

Lemma intersection_conserves (left right : LookupMap) (i : Index) :
  occurrences i (held (intersection left right))
  + releases i (flat_map (releasedRight right) (map_to_list left))
  = occurrences i (held left) + occurrences i (held right).
Proof.
  revert right. induction left as [|k e left Hfresh IH] using map_ind; intros right.
  - rewrite intersection_empty, map_to_list_empty, held_empty. simpl.
    unfold releases, occurrences. simpl. lia.
  - rewrite intersection_insert.
    assert (Hnone : intersection left (delete k right) !! k = None).
    { unfold intersection. rewrite lookup_merge, Hfresh, lookup_delete_eq. reflexivity. }
    rewrite (occurrences_perm i _ _ (held_insert _ k _ Hnone)).
    rewrite (releases_perm i _ (releasedRight right (k, e)
               ++ flat_map (releasedRight right) (map_to_list left))).
    2:{ rewrite (map_to_list_insert left k e Hfresh). reflexivity. }
    rewrite (flat_map_ext_Forall (releasedRight right) (releasedRight (delete k right))).
    2:{ apply Forall_forall. intros [k' e'] Hin.
        apply elem_of_map_to_list in Hin. unfold releasedRight. simpl.
        rewrite lookup_delete_ne; [reflexivity|]. intros ->. congruence. }
    rewrite (occurrences_perm i _ _ (held_insert left k e Hfresh)).
    rewrite (held_lookup right k i).
    rewrite occurrences_app, releases_app, occurrences_app.
    specialize (IH (delete k right)).
    assert (Hkey : occurrences i (indexes (intersected e (right !! k)))
                   + releases i (releasedRight right (k, e))
                   = occurrences i (indexes e)
                     + occurrences i (from_option indexes [] (right !! k))).
    { unfold intersected, combined, releasedRight. simpl.
      destruct (right !! k) as [e2|]; simpl.
      - destruct (canMergeIndexes (lookup e) (lookup e2)); simpl.
        + rewrite occurrences_app. unfold releases. simpl. lia.
        + rewrite releases_Released. reflexivity.
      - unfold releases, occurrences. simpl. lia. }
    lia.
Qed.

(** Every index of the two maps is, after [indexesIntersection], either
    in the map returned or released by the call, with its multiplicity;
    the call borrows nothing. *)
Theorem indexesIntersection_conserves (left right : LookupMap) (i : Index) :
  ∃ result trace,
    indexesIntersection left right = (Ok result, trace) ∧
    occurrences i (held result) + releases i trace
    = occurrences i (held left) + occurrences i (held right) ∧
    borrows i trace = 0.
Proof.
  eexists _, _. split; [apply indexesIntersection_result|]. split.
  - apply intersection_conserves.
  - apply borrows_releasedRight.
Qed.

End Combinators.

(** ** Single predicates *)

Section Predicates.
Context `{Collaborators}.

(** C5. Comparison-to-capability mapping: for a comparison with one
    column-bearing side [column] and one evaluable side [value], in either
    order, an index [idx] of the catalog for [column] and [value]
    evaluating to [v], the lookup is [Get(v)] for [=], [DescendGreater(v)]
    for [>] on a descend index, [AscendGreaterOrEqual(v)] for [>=] on an
    ascend index, [AscendLessThan(v)] for [<] on an ascend index and
    [DescendLessOrEqual(v)] for [<=] on a descend index; the map then
    holds it for the table of the index, with that one borrowed index.
    When the index lacks the capability the index is released and the
    map is empty. *)
Theorem getIndexes_Comparison (op : Comparer) (l r column value : Expression)
    (idx : Index) (v : Value) :
  (l, r) = (column, value) ∨ (l, r) = (value, column) →
  isEvaluable column = false →
  isEvaluable value = true →
  lookupIndex [column] = Some idx →
  Eval value = Ok v →
  getIndexes (Comparison op l r) =
  comparisonResult idx
    match op with
    | Equals => Some (Get idx [v])
    | GreaterThan =>
        if isDescend idx then Some (DescendGreater idx [v]) else None
    | GreaterThanOrEqual =>
        if isAscend idx then Some (AscendGreaterOrEqual idx [v]) else None
    | LessThan =>
        if isAscend idx then Some (AscendLessThan idx [v]) else None
    | LessThanOrEqual =>
        if isDescend idx then Some (DescendLessOrEqual idx [v]) else None
    end.
Proof.
  intros Hsides Hcol Hval Hidx Hv.
  assert (Hnorm : (if negb (isEvaluable r) then (r, l) else (l, r)) = (column, value)).
  { destruct Hsides as [Heq|Heq]; inversion Heq; subst l r.
    - rewrite Hval. reflexivity.
    - rewrite Hcol. reflexivity. }
  simpl. unfold getComparisonIndex. rewrite Hnorm, Hcol, Hval. simpl.
  unfold IndexByExpression. rewrite Hidx. simpl. rewrite Hv.
  destruct op; simpl; unfold lift, bind, ret;
    try destruct (isDescend idx); try destruct (isAscend idx); simpl;
    try reflexivity;
    match goal with
    | |- context [match ?o with Ok _ => _ | _ => _ end] => destruct o; reflexivity
    end.
Qed.

Lemma inUnion_early_stop (idx : Index) (pre : list Value) :
  ∀ (lookup0 : IndexLookup) (lookups : list IndexLookup) (vk : Value)
    (post : list Value) (lookupk : IndexLookup),
    Forall2 (λ v l, Get idx [v] = Ok l) pre lookups →
    mergeChain lookup0 lookups = true →
    Get idx [vk] = Ok lookupk →
    canMergeIndexes (foldl Union lookup0 lookups) lookupk = false →
    inUnion idx lookup0 (pre ++ vk :: post) = (Ok None, []).
Proof.
  induction pre as [|v pre IH]; intros lookup0 lookups vk post lookupk Hget Hchain Hk Hstop.
  - inversion Hget; subst. simpl in *. rewrite Hk. simpl. rewrite Hstop. reflexivity.
  - inversion Hget as [|? l' ? lookups' Hv Hrest]; subst. simpl in *.
    apply andb_true_iff in Hchain as [Hm Hchain].
    rewrite Hv. simpl. rewrite Hm. simpl.
    rewrite (IH _ _ _ _ _ Hrest Hchain Hk Hstop). reflexivity.
Qed.

Lemma inUnion_all (idx : Index) (values : list Value) :
  ∀ (lookup0 : IndexLookup) (lookups : list IndexLookup),
    Forall2 (λ v l, Get idx [v] = Ok l) values lookups →
    mergeChain lookup0 lookups = true →
    inUnion idx lookup0 values = (Ok (Some (foldl Union lookup0 lookups)), []).
Proof.
  induction values as [|v values IH]; intros lookup0 lookups Hget Hchain.
  - inversion Hget; subst. reflexivity.
  - inversion Hget as [|? l' ? lookups' Hv Hrest]; subst. simpl in *.
    apply andb_true_iff in Hchain as [Hm Hchain].
    rewrite Hv. simpl. rewrite Hm. simpl.
    rewrite (IH _ _ Hrest Hchain). reflexivity.
Qed.

(** C4 (amended). IN early stop: for [l IN r] with [l] column-bearing, [r]
    evaluating to the tuple [v0, pre..., vk, post...], and an index [idx]
    of the catalog for [l], if the point lookups of [v0, pre...] unite one
    after the other and the lookup of [vk] cannot be merged into their
    union (the k-th element, k >= 2, so also k >= 3), then [getIndexes]
    returns without error the empty map: the partial union is dropped,
    and the borrowed index is released, once, by the deferred cleanup. *)
Theorem getIndexes_In_early_stop (l r : Expression) (idx : Index)
    (v0 vk : Value) (pre post : list Value)
    (lookup0 lookupk : IndexLookup) (lookups : list IndexLookup) :
  isEvaluable l = false →
  isEvaluable r = true →
  lookupIndex [l] = Some idx →
  Eval r = Ok (VTuple (v0 :: pre ++ vk :: post)) →
  Get idx [v0] = Ok lookup0 →
  Forall2 (λ v l, Get idx [v] = Ok l) pre lookups →
  mergeChain lookup0 lookups = true →
  Get idx [vk] = Ok lookupk →
  canMergeIndexes (foldl Union lookup0 lookups) lookupk = false →
  getIndexes (In l r) = (Ok ∅, [Borrowed idx; Released idx]).
Proof.
  intros Hl Hr Hidx Hev H0 Hpre Hchain Hk Hstop.
  simpl. rewrite Hl, Hr. simpl.
  unfold IndexByExpression. rewrite Hidx. simpl.
  rewrite Hev. simpl. rewrite H0. simpl.
  rewrite (inUnion_early_stop _ _ _ _ _ _ _ Hpre Hchain Hk Hstop). simpl.
  rewrite lookup_empty. reflexivity.
Qed.

(** The two errors of the IN case: a right-hand side that fails to
    evaluate, and one that evaluates to something that is not a tuple
    ([errInvalidInRightEvaluation]).  In both the index borrowed for the
    left side is released, once, by the deferred cleanup. *)
Theorem getIndexes_In_error (l r : Expression) (idx : Index) :
  isEvaluable l = false →
  isEvaluable r = true →
  lookupIndex [l] = Some idx →
  match Eval r with
  | Ok (VTuple _) | Panic _ => True
  | Ok value =>
      getIndexes (In l r)
      = (Err (errInvalidInRightEvaluation value), [Borrowed idx; Released idx])
  | Err err => getIndexes (In l r) = (Err err, [Borrowed idx; Released idx])
  end.
Proof.
  intros Hl Hr Hidx. simpl. rewrite Hl, Hr. simpl.
  unfold IndexByExpression. rewrite Hidx. simpl.
  destruct (Eval r) as [[z|x|vs]|err|msg]; simpl;
    try exact I; rewrite ?lookup_empty; reflexivity.
Qed.

(** BETWEEN lookup construction, every case: for [v BETWEEN lower AND
    upper] with [v] column-bearing, both bounds evaluable, to [lo] and
    [up], and an index [idx] of the catalog for [v].  A lookup is produced
    when the index is both ascend and descend, the two range calls
    succeed, the ascend range is mergeable with the descend range and
    implements [SetOperations]; it is then their [Union].  Without
    [SetOperations] the unchecked assertion panics.  In every case but
    the first the borrowed index is released. *)
Theorem getIndexes_Between (v lower upper : Expression) (idx : Index)
    (lo up : Value) :
  isEvaluable v = false →
  isEvaluable upper = true →
  isEvaluable lower = true →
  lookupIndex [v] = Some idx →
  Eval upper = Ok up →
  Eval lower = Ok lo →
  getIndexes (Between v lower upper) =
  if isAscend idx && isDescend idx then
    match AscendRange idx [lo] [up] with
    | Ok ascendLookup =>
        match DescendRange idx [up] [lo] with
        | Ok descendLookup =>
            if implMergeable ascendLookup && IsMergeable ascendLookup descendLookup
            then
              if implSetOperations ascendLookup
              then (Ok {[ Table idx := {| lookup := Union ascendLookup descendLookup;
                                          indexes := [idx] |} ]},
                    [Borrowed idx])
              else (Panic "interface conversion: sql.IndexLookup is not sql.SetOperations",
                    [Borrowed idx; Released idx])
            else (Ok ∅, [Borrowed idx; Released idx])
        | Err err => (Err err, [Borrowed idx; Released idx])
        | Panic msg => (Panic msg, [Borrowed idx; Released idx])
        end
    | Err err => (Err err, [Borrowed idx; Released idx])
    | Panic msg => (Panic msg, [Borrowed idx; Released idx])
    end
  else (Ok ∅, [Borrowed idx; Released idx]).
Proof.
  intros Hv Hupper Hlower Hidx Hup Hlo.
  simpl. rewrite Hv, Hupper, Hlower. simpl.
  unfold IndexByExpression. rewrite Hidx. simpl.
  rewrite Hup, Hlo. simpl. unfold betweenIndexLookup.
  destruct (isAscend idx && isDescend idx); simpl;
    [|rewrite lookup_empty; reflexivity].
  destruct (AscendRange idx [lo] [up]) as [ascendLookup|err|msg]; simpl;
    try (rewrite lookup_empty; reflexivity).
  destruct (DescendRange idx [up] [lo]) as [descendLookup|err|msg]; simpl;
    try (rewrite lookup_empty; reflexivity).
  destruct (implMergeable ascendLookup && IsMergeable ascendLookup descendLookup);
    simpl; [|rewrite lookup_empty; reflexivity].
  destruct (implSetOperations ascendLookup); simpl;
    [|rewrite lookup_empty; reflexivity].
  rewrite lookup_insert_eq. reflexivity.
Qed.

(** *** The AND case as the loop of the source *)

Lemma bind_ret_r {A} (m : M A) : bind m ret = m.
Proof.
  destruct m as [[a|e|msg] t]; simpl; [rewrite app_nil_r|..]; reflexivity.
Qed.

Lemma bind_assoc {A B C} (m : M A) (f : A → M B) (g : B → M C) :
  bind (bind m f) g = bind m (λ a, bind (f a) g).
Proof.
  destruct m as [[a|e|msg] t]; simpl; try reflexivity.
  destruct (f a) as [[b|e|msg] t']; simpl; try reflexivity.
  destruct (g b) as [o t'']. rewrite app_assoc. reflexivity.
Qed.

Lemma bind_ext {A B} (m : M A) (f g : A → M B) :
  (∀ a, f a = g a) → bind m f = bind m g.
Proof.
  intros Hfg. destruct m as [[a|e|msg] t]; simpl; try reflexivity.
  rewrite Hfg. reflexivity.
Qed.

Lemma forRange_app {A S} (body : S → A → M S) (l1 l2 : list A) (s : S) :
  forRange body (l1 ++ l2) s = bind (forRange body l1 s) (forRange body l2).
Proof.
  revert s. induction l1 as [|x l1 IH]; intros s; simpl.
  - destruct (forRange body l2 s) as [o t]. reflexivity.
  - rewrite bind_assoc. destruct (body s x) as [[s'|e|msg] t]; simpl; try reflexivity.
    rewrite IH. reflexivity.
Qed.


End Predicates.

(** ** Multi-column matching *)

Section MultiColumn.
Context `{Collaborators}.

(** The selection loop started from any [selected]: either nothing of the
    list is longer and [selected] stays, or the result is the first
    element of the list that is longer than [selected] and no shorter
    than every element of the list. *)
Lemma select_loop (exprList : list (list Expression)) :
  ∀ selected : list Expression,
    let final :=
      foldl (λ selected l, if length selected <? length l then l else selected)
            selected exprList in
    Forall (λ l, length l ≤ length final) exprList ∧
    ((final = selected ∧ Forall (λ l, length l ≤ length selected) exprList) ∨
     (∃ pre post,
        exprList = pre ++ final :: post ∧
        length selected < length final ∧
        Forall (λ l, length l < length final) pre)).
Proof.
  induction exprList as [|x exprList IH]; intros selected; simpl.
  - split; [constructor|]. left. split; [reflexivity|constructor].
  - destruct (Nat.ltb_spec (length selected) (length x)) as [Hlt|Hge].
    + specialize (IH x). simpl in IH. destruct IH as [Hmax [[Heq Hall]|Hlater]].
      * split; [rewrite Heq; constructor; [lia|assumption]|].
        right. exists [], exprList. rewrite Heq. simpl.
        split; [reflexivity|]. split; [assumption|constructor].
      * destruct Hlater as (pre & post & Hsplit & Hlen & Hpre).
        split; [constructor; [lia|assumption]|].
        right. exists (x :: pre), post. simpl.
        split; [f_equal; assumption|]. split; [lia|]. constructor; assumption.
    + specialize (IH selected). simpl in IH. destruct IH as [Hmax [[Heq Hall]|Hlater]].
      * split; [rewrite Heq; constructor; [lia|rewrite <- Heq; assumption]|].
        left. split; [assumption|]. constructor; assumption.
      * destruct Hlater as (pre & post & Hsplit & Hlen & Hpre).
        split; [constructor; [lia|assumption]|].
        right. exists (x :: pre), post. simpl.
        split; [f_equal; assumption|]. split; [assumption|].
        constructor; [lia|assumption].
Qed.

(** C9. Longest-prefix selection: for a (table, operator) group [exps],
    with [exprList] the candidates the catalog returns for the columns of
    the group, the selected candidate is at least as long as every
    candidate and, unless no candidate has a column, it is the first
    candidate of that greatest length (every candidate before it is
    strictly shorter); when the list of candidates is empty the group
    leaves the result as it is and touches no index. *)
Theorem selectLongest_first_longest (table : string) (st : LookupMap * gset nat)
    (exps : list columnExpr) :
  let exprList := ExpressionsWithIndexes (col <$> exps) in
  let selected := selectLongest exprList in
  Forall (λ l, length l ≤ length selected) exprList ∧
  ((selected = [] ∧ Forall (λ l, l = []) exprList) ∨
   (∃ pre post,
      exprList = pre ++ selected :: post ∧
      Forall (λ l, length l < length selected) pre)) ∧
  (exprList = [] → multiColumnGroup table st exps = (Ok st, [])).
Proof.
  intros exprList selected.
  destruct (select_loop exprList []) as [Hmax Hfirst]. fold (selectLongest exprList) in *.
  fold selected in Hmax, Hfirst.
  split; [exact Hmax|]. split.
  - destruct Hfirst as [[Heq Hall]|(pre & post & Hsplit & _ & Hpre)].
    + left. split; [exact Heq|].
      eapply Forall_impl; [exact Hall|]. simpl. intros l Hl.
      destruct l; [reflexivity|simpl in Hl; lia].
    + right. exists pre, post. split; assumption.
  - intros Hempty. unfold multiColumnGroup. destruct st as [result used].
    fold exprList. rewrite Hempty. reflexivity.
Qed.

End MultiColumn.

(** ** The pass over a plan *)

Section Pass.
Context `{Collaborators}.

(** Induction on plans, with the hypothesis for every child of a node. *)
Lemma Node_nested_ind (P : Node → Prop) :
  (∀ name isIndexable, P (TableNode name isIndexable)) →
  (∀ name, P (IndexableTable name)) →
  (∀ index table, P (indexable index table)) →
  (∀ name, P (UnresolvedTable name)) →
  (∀ e child, P child → P (Filter e child)) →
  (∀ kind children, Forall P children → P (Inner kind children)) →
  ∀ node, P node.
Proof.
  intros Htable Hitable Hwrapper Hunresolved Hfilter Hinner.
  fix IH 1. intros [name b|name|index table|name|e child|kind children].
  - apply Htable.
  - apply Hitable.
  - apply Hwrapper.
  - apply Hunresolved.
  - apply Hfilter, IH.
  - apply Hinner. induction children as [|child children IHchildren];
      constructor; [apply IH|exact IHchildren].
Qed.

(** The callback never returns an error to the walk: it keeps the error
    of [getIndexes] in its closure variable [err]. *)
Lemma inspectFilter_cases (node : Node) (s : option LookupMap * option error) :
  (∃ s' t, inspectFilter node s = (s', (Ok true, t))) ∨
  (∃ indexes err t, inspectFilter node s = ((indexes, Some err), (Ok false, t))) ∨
  (∃ s' msg t, inspectFilter node s = (s', (Panic msg, t))).
Proof.
  destruct s as [indexes err].
  destruct node; simpl; try (left; eauto; fail).
  destruct (getIndexes expression) as [[result|err'|msg] t].
  - left. destruct indexes as [indexes|]; [|eauto].
    rewrite indexesIntersection_unfold. eauto.
  - right; left. eauto.
  - right; right. eauto.
Qed.

Lemma Inspect_notErr (node : Node) :
  ∀ s, notErr (Inspect inspectFilter node s).2.1.
Proof.
  induction node as [name b|name|index table|name|e child IH|kind children IH]
    using Node_nested_ind; intros s.
  1-4: (simpl; destruct s; exact I).
  - cbn [Inspect].
    destruct (inspectFilter_cases (Filter e child) s)
      as [(s' & t & ->)|[(ix & err & t & ->)|(s' & msg & t & ->)]]; try exact I.
    specialize (IH s'). destruct (Inspect inspectFilter child s') as [s'' [o t']].
    exact IH.
  - cbn [Inspect].
    destruct (inspectFilter_cases (Inner kind children) s)
      as [(s' & t & ->)|[(ix & err & t & ->)|(s' & msg & t & ->)]]; try exact I.
    match goal with
    | |- context [(fix inspectAll (cs : list Node) (s0 : ?S) {struct cs} := _) children s'] =>
        set (inspectAll := fix inspectAll (cs : list Node) (s0 : S) {struct cs} := _)
    end.
    assert (Hall : ∀ s0, notErr (inspectAll children s0).2.1).
    { clear s s' t. induction IH as [|child children Hchild _ IHchildren]; intros s0.
      - exact I.
      - simpl. specialize (Hchild s0).
        destruct (Inspect inspectFilter child s0) as [s1 [[[]|e|msg] t1]];
          simpl in *; try exact I; try contradiction.
        specialize (IHchildren s1).
        destruct (inspectAll children s1) as [s2 [o2 t2]]. exact IHchildren. }
    specialize (Hall s'). destruct (inspectAll children s') as [s'' [o t']].
    exact Hall.
Qed.

(** The indexes a map holds, entry after entry. *)
Lemma releaseUnused_elem (m : LookupMap) (table : string) (entry : indexLookup)
    (i : Index) :
  m !! table = Some entry → i ∈ indexes entry → Released i ∈ releaseUnused (Some m).
Proof.
  intros Hentry Hi. unfold releaseUnused.
  apply list_elem_of_In, in_flat_map. exists (table, entry). split.
  - apply list_elem_of_In, elem_of_map_to_list. exact Hentry.
  - apply list_elem_of_In, list_elem_of_fmap. exists i. auto.
Qed.

(** C3 (amended). Error atomicity: whenever [assignIndexes] ends with an
    error, the error is the one [getIndexes] left in the walk over the
    filters, no plan is returned (the result is the error alone, neither
    the input plan nor a partly rewritten one), and the deferred cleanup
    releases every index of the lookup map gathered from the filters
    processed so far, after everything the walk did. *)
Theorem assignIndexes_error (node : Node) (err : error) (trace : list Event) :
  assignIndexes node = (Err err, trace) →
  ∃ gathered t,
    Inspect inspectFilter node (None, None) = ((gathered, Some err), (Ok (), t)) ∧
    trace = t ++ releaseUnused gathered ∧
    ∀ m table entry i,
      gathered = Some m → m !! table = Some entry → i ∈ indexes entry →
      Released i ∈ trace.
Proof.
  unfold assignIndexes. destruct (Resolved node); simpl; [|discriminate].
  pose proof (Inspect_notErr node (None, None)) as Hne.
  destruct (Inspect inspectFilter node (None, None)) as [[gathered err'] [o t]].
  simpl in Hne.
  destruct o as [[]|e|msg]; [|contradiction|destruct err'; discriminate].
  destruct err' as [err'|].
  - intros Heq. inversion Heq; subst. exists gathered, t.
    split; [reflexivity|]. split; [reflexivity|].
    intros m table entry i -> Hentry Hi.
    apply elem_of_app. right. eapply releaseUnused_elem; eassumption.
  - destruct (TransformUp wrapTable node (default ∅ gathered)). discriminate.
Qed.

(** With the filter at the root of the plan, an error of [getIndexes] on
    its expression is the result of the rule, with no plan, and the rule
    touches the catalog no further. *)
Lemma assignIndexes_root_filter_error (e : Expression) (child : Node)
    (err : error) (t : list Event) :
  Resolved child = true →
  getIndexes e = (Err err, t) →
  assignIndexes (Filter e child) = (Err err, t).
Proof.
  intros Hres Herr. unfold assignIndexes. simpl. rewrite Hres. simpl.
  rewrite Herr. simpl. rewrite app_nil_r. reflexivity.
Qed.

(** *** Running the rule twice *)

Lemma TransformUp_Inner {S} (fn : Node → S → Node * S) (kind : string)
    (children : list Node) (s : S) :
  TransformUp fn (Inner kind children) s
  = (let '(children', s') := transformAll fn children s in
     fn (Inner kind children') s').
Proof.
  simpl.
  match goal with
  | |- (let '(_, _) := ?loop children s in _) = _ =>
      assert (Hall : ∀ cs s0, loop cs s0 = transformAll fn cs s0)
  end.
  { induction cs as [|c cs IHcs]; intros s0; [reflexivity|].
    simpl. destruct (TransformUp fn c s0). rewrite IHcs. reflexivity. }
  rewrite Hall. reflexivity.
Qed.

Lemma Inspect_unfold {S} (f : Node → S → S * M bool) (node : Node) (s : S) :
  Inspect f node s
  = match f node s with
    | (s, (Ok true, t)) =>
        let '(s, (o, t')) :=
          match node with
          | Filter _ child => Inspect f child s
          | Inner _ children => inspectAll f children s
          | _ => (s, ret ())
          end in
        (s, (o, t ++ t'))
    | (s, (Ok false, t)) => (s, (Ok (), t))
    | (s, (Err e, t)) => (s, (Err e, t))
    | (s, (Panic msg, t)) => (s, (Panic msg, t))
    end.
Proof.
  destruct node; try reflexivity. simpl.
  destruct (f (Inner kind children) s) as [s' [[[]|err|msg] t]]; try reflexivity.
  match goal with
  | |- (let '(_, _) := ?loop children s' in _) = _ =>
      assert (Hall : ∀ cs s0, loop cs s0 = inspectAll f cs s0)
  end.
  { induction cs as [|c cs IHcs]; intros s0; [reflexivity|].
    simpl. destruct (Inspect f c s0) as [s1 [[u|err|msg] t1]]; try reflexivity.
    rewrite IHcs. reflexivity. }
  rewrite Hall. reflexivity.
Qed.

Lemma transformFacts_nil (m : LookupMap) : transformFacts [] [] m m.
Proof.
  split; [|split].
  - intros k. destruct (decide (k ∈ [])) as [Hin|_]; [inversion Hin|reflexivity].
  - auto.
  - intros _ n Hin. inversion Hin.
Qed.

Lemma transformFacts_app (n1 n1' n2 n2' : list string) (m m1 m2 : LookupMap) :
  transformFacts n1 n1' m m1 →
  transformFacts n2 n2' m1 m2 →
  transformFacts (n1 ++ n2) (n1' ++ n2') m m2.
Proof.
  intros (Ha1 & Hb1 & Hc1) (Ha2 & Hb2 & Hc2). split; [|split].
  - intros k. rewrite Ha2, Ha1.
    destruct (decide (k ∈ n2)), (decide (k ∈ n1)), (decide (k ∈ n1 ++ n2)) as [Hin|Hnin];
      try reflexivity; try (exfalso; apply Hnin; apply elem_of_app; auto; fail).
    apply elem_of_app in Hin as [?|?]; contradiction.
  - intros n Hin. apply elem_of_app in Hin as [Hin|Hin]; apply elem_of_app; auto.
  - intros Hnd n Hin. apply NoDup_app in Hnd as (Hnd1 & Hdisj & Hnd2).
    apply elem_of_app in Hin as [Hin|Hin]; [auto|].
    pose proof (Hc2 Hnd2 n Hin) as Hnone. rewrite Ha1 in Hnone.
    destruct (decide (n ∈ n1)) as [Hn1|_]; [|exact Hnone].
    exfalso. apply (Hdisj n Hn1). auto.
Qed.

Lemma TransformUp_facts (node : Node) :
  ∀ m, transformFacts (tableNames node)
         (tableNames (TransformUp wrapTable node m).1)
         m (TransformUp wrapTable node m).2.
Proof.
  induction node as [name b|name|index table|name|e child IH|kind children IH]
    using Node_nested_ind; intros m; try apply transformFacts_nil.
  - destruct b; [|apply transformFacts_nil]. simpl.
    destruct (m !! name) as [index|] eqn:E; simpl; (split; [|split]).
    + intros k. destruct (decide (k ∈ [name])) as [Hin|Hnin].
      * apply list_elem_of_singleton in Hin. subst k. apply lookup_delete_eq.
      * apply lookup_delete_ne. intros <-.
        apply Hnin, list_elem_of_singleton. reflexivity.
    + intros n Hin. inversion Hin.
    + intros _ n Hin. inversion Hin.
    + intros k. destruct (decide (k ∈ [name])) as [Hin|_]; [|reflexivity].
      apply list_elem_of_singleton in Hin. subst k. exact E.
    + auto.
    + intros _ n Hin. apply list_elem_of_singleton in Hin. subst n. exact E.
  - simpl. specialize (IH m).
    destruct (TransformUp wrapTable child m) as [child' m']. exact IH.
  - rewrite TransformUp_Inner.
    assert (Hall : ∀ m, transformFacts (flat_map tableNames children)
                          (flat_map tableNames (transformAll wrapTable children m).1)
                          m (transformAll wrapTable children m).2).
    { clear m. induction IH as [|child children Hchild _ IHchildren]; intros m.
      - apply transformFacts_nil.
      - simpl. specialize (Hchild m).
        destruct (TransformUp wrapTable child m) as [child' m1].
        specialize (IHchildren m1).
        destruct (transformAll wrapTable children m1) as [children' m2].
        simpl in *. eapply transformFacts_app; eassumption. }
    specialize (Hall m).
    destruct (transformAll wrapTable children m) as [children' m']. exact Hall.
Qed.

(** A plan whose unwrapped tables have no lookup in the map is left as it
    is, and so is the map. *)
Lemma TransformUp_fixed (node : Node) :
  ∀ m, (∀ n, n ∈ tableNames node → m !! n = None) →
       TransformUp wrapTable node m = (node, m).
Proof.
  induction node as [name b|name|index table|name|e child IH|kind children IH]
    using Node_nested_ind; intros m Hnone; try reflexivity.
  - destruct b; [|reflexivity]. simpl.
    rewrite (Hnone name); [reflexivity|]. simpl. apply list_elem_of_singleton. reflexivity.
  - simpl. rewrite (IH m Hnone). reflexivity.
  - rewrite TransformUp_Inner.
    assert (Hall : transformAll wrapTable children m = (children, m)).
    { revert m Hnone. simpl.
      induction IH as [|child children Hchild _ IHchildren]; intros m Hnone.
      - reflexivity.
      - simpl in *. rewrite (Hchild m).
        + rewrite (IHchildren m); [reflexivity|].
          intros n Hin. apply Hnone, elem_of_app. auto.
        + intros n Hin. apply Hnone, elem_of_app. auto. }
    rewrite Hall. reflexivity.
Qed.

Lemma TransformUp_Resolved (node : Node) :
  ∀ m, Resolved (TransformUp wrapTable node m).1 = Resolved node.
Proof.
  induction node as [name b|name|index table|name|e child IH|kind children IH]
    using Node_nested_ind; intros m; try reflexivity.
  - destruct b; [|reflexivity]. simpl. destruct (m !! name); reflexivity.
  - simpl. specialize (IH m).
    destruct (TransformUp wrapTable child m) as [child' m']. exact IH.
  - rewrite TransformUp_Inner.
    assert (Hall : ∀ m, forallb Resolved (transformAll wrapTable children m).1
                        = forallb Resolved children).
    { clear m. induction IH as [|child children Hchild _ IHchildren]; intros m.
      - reflexivity.
      - simpl. specialize (Hchild m).
        destruct (TransformUp wrapTable child m) as [child' m1].
        specialize (IHchildren m1).
        destruct (transformAll wrapTable children m1) as [children' m2].
        simpl in *. rewrite Hchild, IHchildren. reflexivity. }
    specialize (Hall m).
    destruct (transformAll wrapTable children m) as [children' m']. exact Hall.
Qed.

(** The walk over the filters does not see the wrappers: it reads the
    expressions of the filters only, and these are left in place. *)
Lemma TransformUp_Inspect (node : Node) :
  ∀ m s, Inspect inspectFilter (TransformUp wrapTable node m).1 s
         = Inspect inspectFilter node s.
Proof.
  induction node as [name b|name|index table|name|e child IH|kind children IH]
    using Node_nested_ind; intros m s; try reflexivity.
  - destruct b; [|reflexivity]. simpl TransformUp.
    destruct (m !! name); reflexivity.
  - simpl TransformUp. specialize (IH m).
    destruct (TransformUp wrapTable child m) as [child' m'].
    change (wrapTable (Filter e child') m').1 with (Filter e child').
    change (child', m').1 with child' in IH.
    rewrite (Inspect_unfold _ (Filter e child')), (Inspect_unfold _ (Filter e child)).
    change (inspectFilter (Filter e child') s) with (inspectFilter (Filter e child) s).
    destruct (inspectFilter (Filter e child) s) as [s' [[[]|err|msg] t]];
      try reflexivity.
    rewrite IH. reflexivity.
  - rewrite TransformUp_Inner.
    assert (Hall : ∀ m s, inspectAll inspectFilter (transformAll wrapTable children m).1 s
                          = inspectAll inspectFilter children s).
    { clear m s. induction IH as [|child children Hchild _ IHchildren]; intros m s.
      - reflexivity.
      - simpl. specialize (Hchild m).
        destruct (TransformUp wrapTable child m) as [child' m1].
        specialize (IHchildren m1).
        destruct (transformAll wrapTable children m1) as [children' m2].
        simpl in *. rewrite Hchild.
        destruct (Inspect inspectFilter child s) as [s1 [[[]|err|msg] t1]];
          try reflexivity.
        rewrite IHchildren. reflexivity. }
    specialize (Hall m).
    destruct (transformAll wrapTable children m) as [children' m'].
    change (wrapTable (Inner kind children') m').1 with (Inner kind children').
    change (children', m').1 with children' in Hall.
    rewrite (Inspect_unfold _ (Inner kind children')),
            (Inspect_unfold _ (Inner kind children)).
    change (inspectFilter (Inner kind children') s) with (inspectFilter (Inner kind children) s).
    destruct (inspectFilter (Inner kind children) s) as [s' [[[]|err|msg] t]];
      try reflexivity.
    rewrite Hall. reflexivity.
Qed.

(** C8 (amended). Idempotence: for every plan in which no two indexable
    tables that are not wrapped yet have the same name, the rule run on
    its own result returns that result again; and a node that is already
    wrapped, an [indexable] wrapper or an [IndexableTable], is left as it
    is whatever the map holds. *)
Theorem assignIndexes_idempotent (node node' : Node) (t : list Event) :
  NoDup (tableNames node) →
  assignIndexes node = (Ok node', t) →
  (∃ t', assignIndexes node' = (Ok node', t')) ∧
  (∀ index name m,
     wrapTable (indexable index name) m = (indexable index name, m) ∧
     wrapTable (IndexableTable name) m = (IndexableTable name, m)).
Proof.
  intros Hnd Hrun. split; [|intros; split; reflexivity].
  unfold assignIndexes in Hrun.
  destruct (Resolved node) eqn:Hres; simpl in Hrun.
  - destruct (Inspect inspectFilter node (None, None)) as [[gathered err] [o ti]] eqn:Hwalk.
    destruct o as [[]|e|msg]; [|discriminate|discriminate].
    destruct err as [err|]; [discriminate|].
    pose proof (TransformUp_facts node (default ∅ gathered)) as (_ & _ & Hnone).
    pose proof (TransformUp_Resolved node (default ∅ gathered)) as Hres'.
    pose proof (TransformUp_Inspect node (default ∅ gathered) (None, None)) as Hwalk'.
    destruct (TransformUp wrapTable node (default ∅ gathered)) as [node1 remaining].
    simpl in *. inversion Hrun; subst node1 t.
    unfold assignIndexes. rewrite Hres', Hres. simpl.
    rewrite Hwalk', Hwalk.
    rewrite (TransformUp_fixed node' (default ∅ gathered) (Hnone Hnd)).
    eexists. reflexivity.
  - inversion Hrun; subst node' t. exists [].
    unfold assignIndexes. rewrite Hres. reflexivity.
Qed.

(** *** Conservation, given that [getIndexes] keeps the books *)

Lemma releaseUnused_held (m : LookupMap) :
  releaseUnused (Some m) = Released <$> held m.
Proof.
  unfold releaseUnused, held.
  induction (map_to_list m) as [|[k e] l IH]; [reflexivity|].
  simpl. rewrite fmap_app, IH. reflexivity.
Qed.

Lemma TransformUp_conserves (node : Node) :
  ∀ m i,
    occurrences i (embedded (TransformUp wrapTable node m).1)
    + occurrences i (held (TransformUp wrapTable node m).2)
    = occurrences i (embedded node) + occurrences i (held m).
Proof.
  induction node as [name b|name|index table|name|e child IH|kind children IH]
    using Node_nested_ind; intros m i; try reflexivity.
  - destruct b; [|reflexivity]. simpl.
    destruct (m !! name) as [index|] eqn:E; simpl; [|reflexivity].
    rewrite (held_lookup m name i), E. reflexivity.
  - simpl. specialize (IH m i).
    destruct (TransformUp wrapTable child m) as [child' m']. exact IH.
  - rewrite TransformUp_Inner.
    assert (Hall : ∀ m,
              occurrences i (flat_map embedded (transformAll wrapTable children m).1)
              + occurrences i (held (transformAll wrapTable children m).2)
              = occurrences i (flat_map embedded children) + occurrences i (held m)).
    { clear m. induction IH as [|child children Hchild _ IHchildren]; intros m.
      - reflexivity.
      - simpl. specialize (Hchild m i).
        destruct (TransformUp wrapTable child m) as [child' m1].
        specialize (IHchildren m1).
        destruct (transformAll wrapTable children m1) as [children' m2].
        simpl in *. rewrite !occurrences_app. lia. }
    specialize (Hall m).
    destruct (transformAll wrapTable children m) as [children' m']. exact Hall.
Qed.

Lemma inspectFilter_balanced (node : Node) (s : option LookupMap * option error)
    (t0 : list Event) :
  walkBalanced s t0 →
  Forall (λ e, balanced (getIndexes e)) (filterExpressions node) →
  match inspectFilter node s with
  | (s', (Ok _, t)) => walkBalanced s' (t0 ++ t)
  | _ => True
  end.
Proof.
  intros Hinv Hfilters. destruct s as [gathered err].
  destruct node; simpl; try (rewrite app_nil_r; exact Hinv).
  apply Forall_cons in Hfilters as [Hhere _]. unfold balanced in Hhere.
  destruct (getIndexes expression) as [[result|err'|msg] t]; [| |exact I].
  - destruct gathered as [gathered|].
    + rewrite indexesIntersection_result. intros i. simpl.
      rewrite !borrows_app, !releases_app, borrows_releasedRight.
      pose proof (intersection_conserves gathered result i).
      specialize (Hinv i). specialize (Hhere i). simpl in Hinv. lia.
    + intros i. simpl. rewrite borrows_app, releases_app.
      specialize (Hinv i). specialize (Hhere i). simpl in Hinv.
      rewrite held_empty in Hinv. unfold occurrences in Hinv at 1. simpl in Hinv. lia.
  - intros i. simpl. rewrite borrows_app, releases_app.
    specialize (Hinv i). specialize (Hhere i). simpl in Hinv. lia.
Qed.

Lemma borrows_cons_Borrowed (i j : Index) (t : list Event) :
  borrows i (Borrowed j :: t) = occurrences i [j] + borrows i t.
Proof.
  unfold borrows, occurrences. rewrite !filter_cons, filter_nil.
  destruct (decide (Borrowed j = Borrowed i)) as [Heq|Hne];
    destruct (decide (j = i)) as [Heq'|Hne']; simpl; congruence.
Qed.

Lemma borrows_cons_Released (i j : Index) (t : list Event) :
  borrows i (Released j :: t) = borrows i t.
Proof.
  unfold borrows. rewrite filter_cons.
  destruct (decide (Released j = Borrowed i)); [discriminate|reflexivity].
Qed.

Lemma releases_cons_Released (i j : Index) (t : list Event) :
  releases i (Released j :: t) = occurrences i [j] + releases i t.
Proof.
  unfold releases, occurrences. rewrite !filter_cons, filter_nil.
  destruct (decide (Released j = Released i)) as [Heq|Hne];
    destruct (decide (j = i)) as [Heq'|Hne']; simpl; congruence.
Qed.

Lemma releases_cons_Borrowed (i j : Index) (t : list Event) :
  releases i (Borrowed j :: t) = releases i t.
Proof.
  unfold releases. rewrite filter_cons.
  destruct (decide (Borrowed j = Released i)); [discriminate|reflexivity].
Qed.

Lemma held_singleton (k : string) (e : indexLookup) :
  held ({[ k := e ]} : LookupMap) = indexes e.
Proof. unfold held. rewrite map_to_list_singleton. simpl. apply app_nil_r. Qed.

(** The three ways a single predicate ends once it has borrowed [idx]. *)
Lemma balanced_kept (idx : Index) (l : IndexLookup) :
  balanced (Ok {[ Table idx := {| lookup := l; indexes := [idx] |} ]}, [Borrowed idx]).
Proof.
  intros i. rewrite held_singleton, borrows_cons_Borrowed, releases_cons_Borrowed.
  simpl. unfold borrows, releases. simpl. lia.
Qed.

Lemma balanced_released (idx : Index) :
  balanced (Ok ∅, [Borrowed idx; Released idx]).
Proof.
  intros i. rewrite held_empty, borrows_cons_Borrowed, borrows_cons_Released,
    releases_cons_Borrowed, releases_cons_Released.
  unfold borrows, releases, occurrences. simpl. lia.
Qed.

Lemma borrowed_released (idx i : Index) :
  borrows i [Borrowed idx; Released idx] = releases i [Borrowed idx; Released idx].
Proof.
  rewrite borrows_cons_Borrowed, borrows_cons_Released,
    releases_cons_Borrowed, releases_cons_Released.
  unfold borrows, releases. simpl. lia.
Qed.

Lemma balanced_untouched : balanced (Ok ∅, []).
Proof. intros i. rewrite held_empty. reflexivity. Qed.

Lemma inUnion_trace (idx : Index) (values : list Value) :
  ∀ l, (inUnion idx l values).2 = [].
Proof.
  induction values as [|v values IH]; intros l; simpl; [reflexivity|].
  destruct (Get idx [v]) as [l2|err|msg]; simpl; try reflexivity.
  destruct (canMergeIndexes l l2); simpl; [|reflexivity].
  specialize (IH (Union l l2)).
  destruct (inUnion idx (Union l l2) values) as [o t]. simpl in *. exact IH.
Qed.

(** A single predicate keeps the books, whatever the collaborators do
    short of a panic: the index it borrows is in the map it returns or
    released, and released when it returns an error. *)
Theorem getIndexes_single_balanced (e : Expression) :
  isSinglePredicate e = true → balanced (getIndexes e).
Proof.
  destruct e as [table name|v|es|l r|l r|op l r|v lower upper|l r|kind children];
    intros Hsingle; try discriminate; try apply balanced_untouched.
  - (* comparison *)
    simpl. unfold getComparisonIndex.
    destruct (if negb (isEvaluable r) then (r, l) else (l, r)) as [lhs rhs].
    destruct (negb (isEvaluable lhs) && isEvaluable rhs); [|apply balanced_untouched].
    unfold IndexByExpression.
    destruct (lookupIndex [lhs]) as [idx|]; [|apply balanced_untouched]. simpl.
    destruct (Eval rhs) as [value|err|msg]; simpl; [|intros i; apply borrowed_released|exact I].
    destruct op; simpl; unfold lift, bind, ret;
      try destruct (isDescend idx); try destruct (isAscend idx); simpl;
      try apply balanced_released;
      match goal with
      | |- context [match ?o with Ok _ => _ | _ => _ end] =>
          destruct o; simpl;
            [apply balanced_kept|intros i; apply borrowed_released|exact I]
      end.
  - (* BETWEEN *)
    simpl.
    destruct (negb (isEvaluable v) && isEvaluable upper && isEvaluable lower);
      [|apply balanced_untouched].
    unfold IndexByExpression.
    destruct (lookupIndex [v]) as [idx|]; [|apply balanced_untouched]. simpl.
    destruct (Eval upper) as [up|err|msg]; simpl;
      rewrite ?lookup_empty; [|intros i; apply borrowed_released|exact I].
    destruct (Eval lower) as [lo|err|msg]; simpl;
      rewrite ?lookup_empty; [|intros i; apply borrowed_released|exact I].
    unfold betweenIndexLookup.
    destruct (isAscend idx && isDescend idx); simpl;
      rewrite ?lookup_empty; [|apply balanced_released].
    destruct (AscendRange idx [lo] [up]) as [asc|err|msg]; simpl;
      rewrite ?lookup_empty; [|intros i; apply borrowed_released|exact I].
    destruct (DescendRange idx [up] [lo]) as [desc|err|msg]; simpl;
      rewrite ?lookup_empty; [|intros i; apply borrowed_released|exact I].
    destruct (implMergeable asc && IsMergeable asc desc); simpl;
      rewrite ?lookup_empty; [|apply balanced_released].
    destruct (implSetOperations asc); simpl; rewrite ?lookup_empty; [|exact I].
    rewrite lookup_insert_eq. apply balanced_kept.
  - (* IN *)
    simpl.
    destruct (negb (isEvaluable l) && isEvaluable r); [|apply balanced_untouched].
    unfold IndexByExpression.
    destruct (lookupIndex [l]) as [idx|]; [|apply balanced_untouched]. simpl.
    destruct (Eval r) as [[z|x|values]|err|msg]; simpl;
      rewrite ?lookup_empty; try (intros i; apply borrowed_released); try exact I.
    destruct values as [|v0 rest]; simpl; rewrite ?lookup_empty; [exact I|].
    destruct (Get idx [v0]) as [l0|err|msg]; simpl;
      rewrite ?lookup_empty; [|intros i; apply borrowed_released|exact I].
    pose proof (inUnion_trace idx rest l0) as Htrace.
    destruct (inUnion idx l0 rest) as [[[merged|]|err|msg] t]; simpl in *; subst t;
      simpl; rewrite ?lookup_empty, ?lookup_insert_eq;
      [apply balanced_kept|apply balanced_released|intros i; apply borrowed_released|exact I].
Qed.

Lemma Inspect_balanced (node : Node) :
  ∀ s t0,
    walkBalanced s t0 →
    Forall (λ e, balanced (getIndexes e)) (filterExpressions node) →
    match Inspect inspectFilter node s with
    | (s', (Ok _, t)) => walkBalanced s' (t0 ++ t)
    | _ => True
    end.
Proof.
  induction node as [name b|name|index table|name|e child IH|kind children IH]
    using Node_nested_ind; intros s t0 Hinv Hfilters;
    rewrite Inspect_unfold;
    match goal with
    | |- context [inspectFilter ?n s] =>
        pose proof (inspectFilter_balanced n s t0 Hinv Hfilters) as Hstep;
        destruct (inspectFilter n s) as [s1 [[[]|err|msg] t1]]
    end; try exact I; try exact Hstep;
    try (simpl; rewrite app_nil_r; exact Hstep).
  - simpl in Hfilters. apply Forall_cons in Hfilters as [_ Hfilters].
    specialize (IH s1 (t0 ++ t1) Hstep Hfilters).
    destruct (Inspect inspectFilter child s1) as [s2 [[u|err|msg] t2]]; try exact I.
    rewrite app_assoc. exact IH.
  - simpl in Hfilters.
    assert (Hall : ∀ s t0,
              walkBalanced s t0 →
              Forall (λ e, balanced (getIndexes e)) (flat_map filterExpressions children) →
              match inspectAll inspectFilter children s with
              | (s', (Ok _, t)) => walkBalanced s' (t0 ++ t)
              | _ => True
              end).
    { clear s t0 Hinv Hfilters s1 t1 Hstep.
      induction IH as [|child children Hchild _ IHchildren]; intros s t0 Hinv Hfilters.
      - simpl. rewrite app_nil_r. exact Hinv.
      - simpl in *. apply Forall_app in Hfilters as [Hfirst Hrest].
        specialize (Hchild s t0 Hinv Hfirst).
        destruct (Inspect inspectFilter child s) as [s2 [[u|err|msg] t2]]; try exact I.
        specialize (IHchildren s2 (t0 ++ t2) Hchild Hrest).
        destruct (inspectAll inspectFilter children s2) as [s3 [[u'|err|msg] t3]];
          try exact I.
        rewrite app_assoc. exact IHchildren. }
    specialize (Hall s1 (t0 ++ t1) Hstep Hfilters).
    destruct (inspectAll inspectFilter children s1) as [s2 [[u|err|msg] t2]]; try exact I.
    rewrite app_assoc. exact Hall.
Qed.

(** Borrow conservation, where it holds: if [getIndexes] keeps the books
    on the expression of every filter of the plan, then so does the whole
    rule.  On success every index borrowed is released by the rule or
    embedded in the plan returned, with its multiplicity (the indexes the
    input plan already embeds stay embedded); on an error every index
    borrowed is released. *)
Theorem assignIndexes_conserves (node : Node) :
  Forall (λ e, balanced (getIndexes e)) (filterExpressions node) →
  match assignIndexes node with
  | (Ok node', t) =>
      ∀ i, borrows i t + occurrences i (embedded node)
           = releases i t + occurrences i (embedded node')
  | (Err _, t) => ∀ i, borrows i t = releases i t
  | (Panic _, _) => True
  end.
Proof.
  intros Hfilters. unfold assignIndexes.
  destruct (Resolved node); simpl; [|intros i; reflexivity].
  assert (Hinit : walkBalanced (None, None) []).
  { intros i. simpl. rewrite held_empty. reflexivity. }
  pose proof (Inspect_balanced node (None, None) [] Hinit Hfilters) as Hwalk.
  pose proof (Inspect_notErr node (None, None)) as Hne.
  destruct (Inspect inspectFilter node (None, None)) as [[gathered err] [o t]].
  simpl in Hne, Hwalk.
  destruct o as [[]|e|msg]; [|contradiction|destruct err; exact I].
  unfold walkBalanced in Hwalk. simpl in Hwalk.
  destruct err as [err|].
  - intros i. rewrite borrows_app, releases_app. specialize (Hwalk i).
    destruct gathered as [m|]; simpl in Hwalk.
    + rewrite releaseUnused_held, borrows_Released, releases_Released. lia.
    + rewrite held_empty in Hwalk. unfold releaseUnused, borrows, releases in *.
      unfold occurrences in Hwalk. simpl in *. lia.
  - pose proof (TransformUp_conserves node (default ∅ gathered)) as Hmove.
    destruct gathered as [m|]; simpl in Hwalk, Hmove; simpl default.
    + destruct (TransformUp wrapTable node m) as [node' remaining].
      simpl in Hmove. simpl fmap.
      intros i. rewrite borrows_app, releases_app.
      rewrite releaseUnused_held, borrows_Released, releases_Released.
      specialize (Hwalk i). specialize (Hmove i). lia.
    + rewrite (TransformUp_fixed node ∅) by (intros; apply lookup_empty).
      simpl. intros i. rewrite app_nil_r. specialize (Hwalk i).
      rewrite held_empty in Hwalk. unfold occurrences in Hwalk at 1.
      simpl in Hwalk. lia.
Qed.

End Pass.

(** * More of the rule *)

(** ** The OR case *)

Section OrCase.
Context `{Collaborators}.

Lemma indexesUnion_disjunction (leftIndexes rightIndexes : LookupMap) :
  indexesUnion leftIndexes rightIndexes = disjunction leftIndexes rightIndexes.
Proof.
  apply map_eq. intros table. rewrite indexesUnion_lookup.
  unfold disjunction. rewrite lookup_merge.
  destruct (leftIndexes !! table), (rightIndexes !! table); reflexivity.
Qed.

(** OR merge policy: when both branches return a map, the OR returns a
    map and performs no catalog call of its own.  For a table both
    branches have a lookup for, the map holds the [Union] of the two
    lookups with the index lists concatenated when the lookups are
    mergeable, and the left entry unchanged otherwise; a table only one
    branch has a lookup for keeps the entry of that branch. *)
Theorem getIndexes_Or_policy (l r : Expression)
    (leftIndexes rightIndexes : LookupMap) (tl tr : list Event) :
  getIndexes l = (Ok leftIndexes, tl) →
  getIndexes r = (Ok rightIndexes, tr) →
  ∃ result,
    getIndexes (Or l r) = (Ok result, tl ++ tr) ∧
    ∀ table,
      result !! table =
      match leftIndexes !! table, rightIndexes !! table with
      | Some idx, Some idx2 =>
          if implMergeable (lookup idx) && IsMergeable (lookup idx) (lookup idx2)
             && implSetOperations (lookup idx)
          then Some {| lookup := Union (lookup idx) (lookup idx2);
                       indexes := indexes idx ++ indexes idx2 |}
          else Some idx
      | Some idx, None => Some idx
      | None, entry => entry
      end.
Proof.
  intros Hl Hr. exists (indexesUnion leftIndexes rightIndexes). split.
  - rewrite getIndexes_Or, Hl, Hr. simpl. rewrite app_nil_r. reflexivity.
  - intros table. rewrite indexesUnion_lookup.
    destruct (leftIndexes !! table) as [idx|]; [|reflexivity].
    unfold united, combined. destruct (rightIndexes !! table) as [idx2|]; [|reflexivity].
    rewrite canMergeIndexes_spec. destruct (_ && _); reflexivity.
Qed.

(** An error of a branch is the result of the OR; the right branch is not
    looked at when the left one fails, and what the left branch borrowed
    stays borrowed when the right one fails. *)
Theorem getIndexes_Or_error (l r : Expression) (err : error) (tl : list Event) :
  (getIndexes l = (Err err, tl) → getIndexes (Or l r) = (Err err, tl)) ∧
  (∀ leftIndexes tr,
     getIndexes l = (Ok leftIndexes, tl) →
     getIndexes r = (Err err, tr) →
     getIndexes (Or l r) = (Err err, tl ++ tr)).
Proof.
  split.
  - intros Hl. rewrite getIndexes_Or, Hl. reflexivity.
  - intros leftIndexes tr Hl Hr. rewrite getIndexes_Or, Hl. simpl. rewrite Hr. reflexivity.
Qed.

Lemma disjunction_empty (right : LookupMap) : disjunction ∅ right = right.
Proof.
  apply map_eq. intros table. unfold disjunction.
  rewrite lookup_merge, lookup_empty. destruct (right !! table); reflexivity.
Qed.

Lemma disjunction_insert (left right : LookupMap) (k : string) (e : indexLookup) :
  disjunction (<[k := e]> left) right
  = <[k := united e (right !! k)]> (disjunction left (delete k right)).
Proof.
  apply map_eq. intros table. unfold disjunction.
  destruct (decide (table = k)) as [->|Hne].
  - rewrite lookup_merge, !lookup_insert_eq. reflexivity.
  - rewrite lookup_insert_ne by congruence.
    rewrite !lookup_merge, lookup_insert_ne, lookup_delete_ne by congruence.
    reflexivity.
Qed.

(** What the OR case loses: every index of the two branch maps is in the
    map of the OR, with its multiplicity, except the indexes of the right
    entries for the tables whose two lookups cannot be merged; these are
    in no map any more, and the OR case has not released them. *)
Theorem indexesUnion_accounts (leftIndexes rightIndexes : LookupMap) (i : Index) :
  occurrences i (held (indexesUnion leftIndexes rightIndexes))
  + occurrences i (flat_map (droppedRight rightIndexes) (map_to_list leftIndexes))
  = occurrences i (held leftIndexes) + occurrences i (held rightIndexes).
Proof.
  rewrite indexesUnion_disjunction. revert rightIndexes.
  induction leftIndexes as [|k e left Hfresh IH] using map_ind; intros right.
  - rewrite disjunction_empty. unfold held. rewrite !map_to_list_empty.
    unfold occurrences. simpl. lia.
  - rewrite disjunction_insert.
    assert (Hnone : disjunction left (delete k right) !! k = None).
    { unfold disjunction. rewrite lookup_merge, Hfresh, lookup_delete_eq. reflexivity. }
    rewrite (occurrences_perm i _ _ (held_insert _ k _ Hnone)).
    rewrite (occurrences_perm i (flat_map (droppedRight right) (map_to_list (<[k:=e]> left)))
               (droppedRight right (k, e)
                ++ flat_map (droppedRight right) (map_to_list left))).
    2:{ rewrite (map_to_list_insert left k e Hfresh). reflexivity. }
    rewrite (flat_map_ext_Forall (droppedRight right) (droppedRight (delete k right))).
    2:{ apply Forall_forall. intros [k' e'] Hin.
        apply elem_of_map_to_list in Hin. unfold droppedRight. simpl.
        rewrite lookup_delete_ne; [reflexivity|]. intros ->. congruence. }
    rewrite (occurrences_perm i _ _ (held_insert left k e Hfresh)).
    rewrite (held_lookup right k i).
    rewrite !occurrences_app.
    specialize (IH (delete k right)).
    assert (Hkey : occurrences i (indexes (united e (right !! k)))
                   + occurrences i (droppedRight right (k, e))
                   = occurrences i (indexes e)
                     + occurrences i (from_option indexes [] (right !! k))).
    { unfold united, combined, droppedRight. simpl.
      destruct (right !! k) as [e2|]; simpl.
      - destruct (canMergeIndexes (lookup e) (lookup e2)); simpl.
        + rewrite occurrences_app. unfold occurrences. simpl. lia.
        + reflexivity.
      - unfold occurrences. simpl. lia. }
    lia.
Qed.

End OrCase.

(** ** The IN case *)

Section InCase.
Context `{Collaborators}.

(** IN builds the union of the point lookups: for [l IN r] with [l]
    column-bearing, an index [idx] of the catalog for [l], and [r]
    evaluating to a tuple whose point lookups unite one after the other,
    the map holds, for the table of the index, the left-nested [Union] of
    the point lookups in the order of the tuple, with the one borrowed
    index, which is not released. *)
Theorem getIndexes_In_union (l r : Expression) (idx : Index)
    (v0 : Value) (rest : list Value)
    (lookup0 : IndexLookup) (lookups : list IndexLookup) :
  isEvaluable l = false →
  isEvaluable r = true →
  lookupIndex [l] = Some idx →
  Eval r = Ok (VTuple (v0 :: rest)) →
  Get idx [v0] = Ok lookup0 →
  Forall2 (λ v l, Get idx [v] = Ok l) rest lookups →
  mergeChain lookup0 lookups = true →
  getIndexes (In l r)
  = (Ok {[ Table idx := {| lookup := foldl Union lookup0 lookups;
                           indexes := [idx] |} ]},
     [Borrowed idx]).
Proof.
  intros Hl Hr Hidx Hev H0 Hrest Hchain.
  simpl. rewrite Hl, Hr. simpl.
  unfold IndexByExpression. rewrite Hidx. simpl.
  rewrite Hev. simpl. rewrite H0. simpl.
  rewrite (inUnion_all _ _ _ _ Hrest Hchain). simpl.
  rewrite lookup_insert_eq. reflexivity.
Qed.

End InCase.

(** ** Predicates without columns *)

Section ConstantPredicates.
Context `{Collaborators}.

(** The AND case as the loop over the conjuncts (for the proofs below). *)
Lemma getIndexes_And_loop (l r : Expression) :
  getIndexes (And l r)
  = (let* (result, used) := getMultiColumnIndexes (splitExpression (And l r)) ∅ in
     let* st := forRange (λ st c, andConjunct (getIndexes c) used st)
                         (splitExpression (And l r)) (0, result) in
     ret (snd st)).
Proof.
  cbn [getIndexes]. cbv zeta.
  destruct (getMultiColumnIndexes (splitExpression (And l r)) ∅)
    as [[[result used]|e|msg] t]; try reflexivity.
  cbn [bind]. cbn [splitExpression]. rewrite forRange_app, bind_assoc.
  match goal with
  | |- (let '(_, _) := bind (?loop l _) _ in _) = _ =>
      assert (Hloop : ∀ c st, loop c st
                = forRange (λ st c, andConjunct (getIndexes c) used st)
                           (splitExpression c) st)
  end.
  { induction c; intros st;
      try (simpl; rewrite bind_ret_r; reflexivity).
    cbn [splitExpression]. rewrite forRange_app.
    rewrite IHc1. apply bind_ext. exact IHc2. }
  rewrite !Hloop.
  destruct (forRange (λ st c, andConjunct (getIndexes c) used st)
              (splitExpression l) (0, result)) as [[st1|e|msg] t1]; try reflexivity.
  cbn [bind]. rewrite Hloop.
  destruct (forRange (λ st c, andConjunct (getIndexes c) used st)
              (splitExpression r) st1) as [[st2|e|msg] t2]; try reflexivity.
Qed.

Lemma Forall_imap_pair {P : Expression → Prop} (exprs : list Expression) :
  Forall P exprs →
  ∀ f : nat → nat, Forall (λ pe, P pe.2) (imap (λ i e, (f i, e)) exprs).
Proof.
  induction 1 as [|e exprs He _ IH]; intros f; simpl; constructor.
  - exact He.
  - apply (IH (f ∘ S)).
Qed.

Lemma containsColumns_isEvaluable (e : Expression) :
  isEvaluable e = true → containsColumns e = false.
Proof. unfold isEvaluable. destruct (containsColumns e); [discriminate|reflexivity]. Qed.

(** A conjunct without columns is not filed under any table. *)
Lemma columnExprsByTable_evaluable (exprs : list Expression) :
  Forall (λ e, isEvaluable e = true) exprs → columnExprsByTable exprs = ∅.
Proof.
  intros Hall. unfold columnExprsByTable.
  pose proof (Forall_imap_pair exprs Hall id) as Hpairs.
  change (imap (λ i e, (id i, e)) exprs) with (imap pair exprs) in Hpairs.
  generalize (∅ : gmap string (list columnExpr)).
  induction Hpairs as [|[pos e] l He _ IH]; intros acc; simpl; [reflexivity|].
  rewrite IH. simpl in He.
  destruct e as [table name|v|es|l' r'|l' r'|op l' r'|v lower upper|l' r'|kind children];
    try reflexivity.
  - apply containsColumns_isEvaluable in He. simpl in He.
    apply orb_false_iff in He as [Hl Hr].
    destruct l'; try discriminate;
      unfold isEvaluable; rewrite Hr; simpl; rewrite ?Hr; reflexivity.
  - apply containsColumns_isEvaluable in He. simpl in He.
    apply orb_false_iff in He as [He _]. apply orb_false_iff in He as [Hv _].
    unfold isEvaluable. rewrite Hv. simpl. rewrite !orb_true_r. reflexivity.
Qed.

Lemma getMultiColumnIndexes_no_columns (exprs : list Expression) (used : gset nat) :
  columnExprsByTable exprs = ∅ →
  getMultiColumnIndexes exprs used = (Ok (∅, used), []).
Proof.
  intros Hnone. unfold getMultiColumnIndexes. rewrite Hnone, map_to_list_empty.
  reflexivity.
Qed.

Lemma indexesIntersection_empty_l (right : LookupMap) :
  indexesIntersection ∅ right = (Ok right, []).
Proof.
  rewrite indexesIntersection_result, intersection_empty, map_to_list_empty.
  reflexivity.
Qed.

Lemma splitExpression_evaluable (e : Expression) :
  isEvaluable e = true → Forall (λ c, isEvaluable c = true) (splitExpression e).
Proof.
  induction e; intros He; try (constructor; [exact He|constructor]).
  simpl. apply containsColumns_isEvaluable in He. simpl in He.
  apply orb_false_iff in He as [Hl Hr].
  apply Forall_app. split; [apply IHe1|apply IHe2]; unfold isEvaluable;
    [rewrite Hl|rewrite Hr]; reflexivity.
Qed.

Lemma getIndexes_evaluable_conjuncts (e : Expression) :
  let P := λ e, isEvaluable e = true → getIndexes e = (Ok ∅, []) in
  P e ∧ Forall P (splitExpression e).
Proof.
  intros P.
  induction e as [table name|v|es|l IHl r IHr|l IHl r IHr|op l _ r _
                 |v _ lower _ upper _|l _ r _|kind children].
  - split; [|constructor; [|constructor]]; intros He; discriminate.
  - split; [|constructor; [|constructor]]; intros He; reflexivity.
  - split; [|constructor; [|constructor]]; intros He; reflexivity.
  - (* AND *)
    destruct IHl as [_ IHl], IHr as [_ IHr].
    assert (Hconj : Forall P (splitExpression (And l r))).
    { simpl. apply Forall_app. split; assumption. }
    split; [|exact Hconj]. intros He.
    pose proof (splitExpression_evaluable _ He) as Hev.
    rewrite getIndexes_And_loop.
    rewrite (getMultiColumnIndexes_no_columns _ _ (columnExprsByTable_evaluable _ Hev)).
    cbn [bind].
    assert (Hloop : ∀ n, forRange (λ st c, andConjunct (getIndexes c) ∅ st)
                           (splitExpression (And l r)) (n, ∅)
                         = (Ok (n + length (splitExpression (And l r)), ∅), [])).
    { revert Hconj Hev. generalize (splitExpression (And l r)) as cs.
      induction cs as [|c cs IHcs]; intros Hconj Hev n.
      - simpl. rewrite Nat.add_0_r. reflexivity.
      - apply Forall_cons in Hconj as [Hc Hconj]. apply Forall_cons in Hev as [Hevc Hev].
        cbn [forRange]. unfold andConjunct at 1.
        rewrite bool_decide_eq_false_2 by apply not_elem_of_empty.
        rewrite (Hc Hevc). cbn [bind]. rewrite indexesIntersection_empty_l.
        cbn [bind ret]. rewrite (IHcs Hconj Hev (S n)). simpl.
        rewrite Nat.add_succ_r. reflexivity. }
    rewrite (Hloop 0). reflexivity.
  - (* OR *)
    destruct IHl as [IHl _], IHr as [IHr _].
    split; [|constructor; [|constructor]]; intros He;
      apply containsColumns_isEvaluable in He; simpl in He;
      apply orb_false_iff in He as [Hl Hr];
      rewrite getIndexes_Or, IHl, IHr by (unfold isEvaluable; rewrite ?Hl, ?Hr; reflexivity);
      simpl; rewrite indexesUnion_disjunction, disjunction_empty; reflexivity.
  - (* comparison *)
    split; [|constructor; [|constructor]]; intros He;
      apply containsColumns_isEvaluable in He; simpl in He;
      apply orb_false_iff in He as [Hl Hr];
      simpl; unfold getComparisonIndex, isEvaluable; rewrite Hr; simpl; rewrite Hl;
      reflexivity.
  - (* BETWEEN *)
    split; [|constructor; [|constructor]]; intros He;
      apply containsColumns_isEvaluable in He; simpl in He;
      apply orb_false_iff in He as [He _]; apply orb_false_iff in He as [Hv _];
      simpl; unfold isEvaluable; rewrite Hv; reflexivity.
  - (* IN *)
    split; [|constructor; [|constructor]]; intros He;
      apply containsColumns_isEvaluable in He; simpl in He;
      apply orb_false_iff in He as [Hl Hr];
      simpl; unfold isEvaluable; rewrite Hl; reflexivity.
  - split; [|constructor; [|constructor]]; intros He; reflexivity.
Qed.

(** A predicate without a column reference never touches the catalog:
    whatever it is built from (comparisons, IN, BETWEEN, AND, OR, ...),
    [getIndexes] returns the empty map and borrows no index. *)
Theorem getIndexes_evaluable (e : Expression) :
  isEvaluable e = true → getIndexes e = (Ok ∅, []).
Proof. apply getIndexes_evaluable_conjuncts. Qed.

End ConstantPredicates.

(** ** Plans without filters *)

Section NoFilter.
Context `{Collaborators}.

Lemma flat_map_nil_Forall {A B} (f : A → list B) (l : list A) :
  flat_map f l = [] → Forall (λ x, f x = []) l.
Proof.
  induction l as [|x l IH]; simpl; intros Hnil; constructor.
  - apply app_eq_nil in Hnil. tauto.
  - apply IH. apply app_eq_nil in Hnil. tauto.
Qed.

Lemma Inspect_no_filter (node : Node) :
  filterExpressions node = [] →
  ∀ s, Inspect inspectFilter node s = (s, (Ok (), [])).
Proof.
  induction node as [name b|name|index table|name|e child IH|kind children IH]
    using Node_nested_ind; intros Hnone [gathered err]; try reflexivity.
  - discriminate.
  - rewrite Inspect_unfold. simpl in *.
    apply flat_map_nil_Forall in Hnone.
    assert (Hall : ∀ s, inspectAll inspectFilter children s = (s, (Ok (), []))).
    { induction IH as [|child children Hchild _ IHchildren]; intros s0; [reflexivity|].
      apply Forall_cons in Hnone as [Hfirst Hrest].
      simpl. rewrite (Hchild Hfirst). rewrite (IHchildren Hrest). reflexivity. }
    rewrite Hall. reflexivity.
Qed.

(** The rule leaves alone what it has nothing to do with: a plan that is
    not resolved, or that has no filter, is returned as it is, and the
    catalog is not called. *)
Theorem assignIndexes_no_filter (node : Node) :
  Resolved node = false ∨ filterExpressions node = [] →
  assignIndexes node = (Ok node, []).
Proof.
  intros Hcase. unfold assignIndexes.
  destruct (Resolved node) eqn:Hres; simpl; [|reflexivity].
  destruct Hcase as [Hno|Hno]; [discriminate|].
  rewrite (Inspect_no_filter node Hno). simpl.
  rewrite (TransformUp_fixed node ∅) by (intros; apply lookup_empty).
  reflexivity.
Qed.

End NoFilter.

(** ** What the rewrite changes *)

Section Rewrite.
Context `{Collaborators}.

Lemma TransformUp_unwrap (node : Node) :
  ∀ m, unwrap (TransformUp wrapTable node m).1 = unwrap node.
Proof.
  induction node as [name b|name|index table|name|e child IH|kind children IH]
    using Node_nested_ind; intros m; try reflexivity.
  - destruct b; [|reflexivity]. simpl. destruct (m !! name); reflexivity.
  - simpl. specialize (IH m).
    destruct (TransformUp wrapTable child m) as [child' m']. simpl in *.
    rewrite IH. reflexivity.
  - rewrite TransformUp_Inner.
    assert (Hall : ∀ m, map unwrap (transformAll wrapTable children m).1
                        = map unwrap children).
    { clear m. induction IH as [|child children Hchild _ IHchildren]; intros m.
      - reflexivity.
      - simpl. specialize (Hchild m).
        destruct (TransformUp wrapTable child m) as [child' m1].
        specialize (IHchildren m1).
        destruct (transformAll wrapTable children m1) as [children' m2].
        simpl in *. rewrite Hchild, IHchildren. reflexivity. }
    specialize (Hall m).
    destruct (transformAll wrapTable children m) as [children' m']. simpl in *.
    rewrite Hall. reflexivity.
Qed.

Lemma TransformUp_filterExpressions (node : Node) :
  ∀ m, filterExpressions (TransformUp wrapTable node m).1 = filterExpressions node.
Proof.
  induction node as [name b|name|index table|name|e child IH|kind children IH]
    using Node_nested_ind; intros m; try reflexivity.
  - destruct b; [|reflexivity]. simpl. destruct (m !! name); reflexivity.
  - simpl. specialize (IH m).
    destruct (TransformUp wrapTable child m) as [child' m']. simpl in *.
    rewrite IH. reflexivity.
  - rewrite TransformUp_Inner.
    assert (Hall : ∀ m, flat_map filterExpressions (transformAll wrapTable children m).1
                        = flat_map filterExpressions children).
    { clear m. induction IH as [|child children Hchild _ IHchildren]; intros m.
      - reflexivity.
      - simpl. specialize (Hchild m).
        destruct (TransformUp wrapTable child m) as [child' m1].
        specialize (IHchildren m1).
        destruct (transformAll wrapTable children m1) as [children' m2].
        simpl in *. rewrite Hchild, IHchildren. reflexivity. }
    specialize (Hall m).
    destruct (transformAll wrapTable children m) as [children' m']. exact Hall.
Qed.

(** The rewrite only takes entries out of the map. *)
Lemma TransformUp_submap (node : Node) (m : LookupMap) (k : string) (v : indexLookup) :
  (TransformUp wrapTable node m).2 !! k = Some v → m !! k = Some v.
Proof.
  destruct (TransformUp_facts node m) as (Hlookup & _ & _).
  rewrite Hlookup. destruct (decide (k ∈ tableNames node)); [discriminate|auto].
Qed.

Lemma TransformUp_wrappers (node : Node) :
  ∀ m, Forall (λ w, w ∈ wrappers node ∨ m !! w.1 = Some w.2)
         (wrappers (TransformUp wrapTable node m).1).
Proof.
  induction node as [name b|name|index table|name|e child IH|kind children IH]
    using Node_nested_ind; intros m; try (simpl; constructor; fail).
  - destruct b; [|constructor]. simpl.
    destruct (m !! name) as [index|] eqn:E; simpl; [|constructor].
    constructor; [|constructor]. right. exact E.
  - simpl. constructor; [|constructor]. left. apply list_elem_of_singleton. reflexivity.
  - simpl. specialize (IH m).
    destruct (TransformUp wrapTable child m) as [child' m']. exact IH.
  - rewrite TransformUp_Inner.
    assert (Hall : ∀ m, Forall (λ w, w ∈ flat_map wrappers children ∨ m !! w.1 = Some w.2)
                          (flat_map wrappers (transformAll wrapTable children m).1)).
    { clear m. induction IH as [|child children Hchild _ IHchildren]; intros m.
      - constructor.
      - simpl. specialize (Hchild m).
        pose proof (TransformUp_submap child m) as Hsub.
        destruct (TransformUp wrapTable child m) as [child' m1].
        specialize (IHchildren m1).
        destruct (transformAll wrapTable children m1) as [children' m2].
        simpl in *. apply Forall_app. split.
        + eapply Forall_impl; [exact Hchild|]. simpl. intros w [Hin|Hm]; [|auto].
          left. apply elem_of_app. auto.
        + eapply Forall_impl; [exact IHchildren|]. simpl. intros w [Hin|Hm]; [|auto].
          left. apply elem_of_app. auto. }
    specialize (Hall m).
    destruct (transformAll wrapTable children m) as [children' m']. exact Hall.
Qed.

(** The rule only wraps tables: under the wrappers the plan returned is
    the input plan, with the same filters; and every wrapper of the plan
    returned either was in the input plan or wraps a table with the
    lookup that the walk over the filters gathered under the name of the
    table. *)
Theorem assignIndexes_only_wraps (node node' : Node) (t : list Event) :
  assignIndexes node = (Ok node', t) →
  unwrap node' = unwrap node ∧
  filterExpressions node' = filterExpressions node ∧
  Resolved node' = Resolved node ∧
  Forall (λ w, w ∈ wrappers node ∨
               ∃ gathered,
                 (Inspect inspectFilter node (None, None)).1.1 = Some gathered ∧
                 gathered !! w.1 = Some w.2)
         (wrappers node').
Proof.
  unfold assignIndexes. destruct (Resolved node) eqn:Hres; simpl.
  - destruct (Inspect inspectFilter node (None, None)) as [[gathered err] [o ti]].
    destruct o as [[]|e|msg]; [|discriminate|discriminate].
    destruct err as [err|]; [discriminate|].
    pose proof (TransformUp_unwrap node (default ∅ gathered)) as Hunwrap.
    pose proof (TransformUp_filterExpressions node (default ∅ gathered)) as Hfilters.
    pose proof (TransformUp_Resolved node (default ∅ gathered)) as Hresolved.
    pose proof (TransformUp_wrappers node (default ∅ gathered)) as Hwrappers.
    destruct (TransformUp wrapTable node (default ∅ gathered)) as [node1 remaining].
    simpl in *. intros Hrun. inversion Hrun; subst node1 t.
    split; [exact Hunwrap|]. split; [exact Hfilters|]. split; [congruence|].
    eapply Forall_impl; [exact Hwrappers|]. simpl. intros w [Hin|Hm]; [auto|].
    right. destruct gathered as [gathered|]; simpl in Hm.
    + exists gathered. auto.
    + rewrite lookup_empty in Hm. discriminate.
  - intros Hrun. inversion Hrun; subst node' t.
    split; [reflexivity|]. split; [reflexivity|]. split; [congruence|].
    apply Forall_forall. auto.
Qed.

End Rewrite.

(** ** Grouping by operator *)

Section Grouping.

Lemma filter_type_snoc (exprs : list columnExpr) (e : columnExpr) (t : string) :
  filter (λ c, typeOf (expr c) = t) (exprs ++ [e])
  = filter (λ c, typeOf (expr c) = t) exprs
    ++ (if decide (typeOf (expr e) = t) then [e] else []).
Proof.
  rewrite filter_app, filter_cons, filter_nil.
  destruct (decide (typeOf (expr e) = t)); reflexivity.
Qed.

Lemma filter_type_head (exprs : list columnExpr) (t : string) :
  (∃ c, c ∈ exprs ∧ typeOf (expr c) = t) →
  ∃ g0 rest, filter (λ c, typeOf (expr c) = t) exprs = g0 :: rest ∧
             typeOf (expr g0) = t.
Proof.
  intros (c & Hin & Ht).
  assert (Hc : c ∈ filter (λ c, typeOf (expr c) = t) exprs).
  { apply list_elem_of_filter. auto. }
  destruct (filter (λ c, typeOf (expr c) = t) exprs) as [|g0 rest] eqn:E.
  - apply elem_of_nil in Hc. contradiction.
  - exists g0, rest. split; [reflexivity|].
    assert (Hg : g0 ∈ filter (λ c, typeOf (expr c) = t) exprs).
    { rewrite E. apply list_elem_of_here. }
    apply list_elem_of_filter in Hg as [Hg _]. exact Hg.
Qed.

(** The inner loop on groups that are the expressions of [exprs] of one
    type each. *)
Lemma appendToGroup_groups (exprs : list columnExpr) (e : columnExpr)
    (types : list string) :
  NoDup types →
  Forall (λ t, ∃ c, c ∈ exprs ∧ typeOf (expr c) = t) types →
  appendToGroup e ((λ t, filter (λ c, typeOf (expr c) = t) exprs) <$> types)
  = if decide (typeOf (expr e) ∈ types)
    then Some ((λ t, filter (λ c, typeOf (expr c) = t) (exprs ++ [e])) <$> types)
    else None.
Proof.
  induction types as [|t types IH]; intros Hnd Hall.
  - simpl. destruct (decide (typeOf (expr e) ∈ [])) as [Hin|_]; [|reflexivity].
    apply elem_of_nil in Hin. contradiction.
  - apply NoDup_cons in Hnd as [Hfresh Hnd].
    apply Forall_cons in Hall as [Ht Hall].
    specialize (IH Hnd Hall).
    destruct (filter_type_head exprs t Ht) as (g0 & rest & Hgroup & Hg0).
    rewrite !fmap_cons. cbn [appendToGroup]. rewrite Hgroup, Hg0, <- Hgroup.
    rewrite filter_type_snoc.
    destruct (decide (typeOf (expr e) = t)) as [Heq|Hne].
    + rewrite bool_decide_true by congruence.
      destruct (decide (typeOf (expr e) ∈ t :: types)) as [_|Hnin].
      * f_equal. f_equal. apply list_fmap_ext. intros j t' Ht'.
        apply list_elem_of_lookup_2 in Ht'.
        rewrite filter_type_snoc.
        destruct (decide (typeOf (expr e) = t')) as [Heq'|_].
        -- exfalso. apply Hfresh. congruence.
        -- rewrite app_nil_r. reflexivity.
      * exfalso. apply Hnin. rewrite Heq. apply list_elem_of_here.
    + rewrite bool_decide_false by congruence. rewrite IH, app_nil_r.
      destruct (decide (typeOf (expr e) ∈ types)) as [Hin|Hnin];
        destruct (decide (typeOf (expr e) ∈ t :: types)) as [Hin'|Hnin'].
      * reflexivity.
      * exfalso. apply Hnin'. apply list_elem_of_further. exact Hin.
      * exfalso. apply elem_of_cons in Hin' as [Heq|Hin']; [congruence|auto].
      * reflexivity.
Qed.

(** [groupExpressionsByOperator] partitions its input by the type of the
    expression: there is one group per type that occurs, no two groups
    for one type, and the group of a type is the list of the expressions
    of that type, in their order in the input.  So no group is empty, no
    expression is lost and none is filed twice. *)
Theorem groupExpressionsByOperator_partition (exprs : list columnExpr) :
  ∃ types : list string,
    NoDup types ∧
    (∀ t, t ∈ types ↔ ∃ c, c ∈ exprs ∧ typeOf (expr c) = t) ∧
    groupExpressionsByOperator exprs
    = (λ t, filter (λ c, typeOf (expr c) = t) exprs) <$> types.
Proof.
  induction exprs as [|e exprs IH] using rev_ind.
  - exists []. split; [constructor|]. split; [|reflexivity].
    intros t. split.
    + intros Hin. apply elem_of_nil in Hin. contradiction.
    + intros (c & Hin & _). apply elem_of_nil in Hin. contradiction.
  - destruct IH as (types & Hnd & Htypes & Hgroups).
    unfold groupExpressionsByOperator in *. rewrite foldl_app. cbn [foldl].
    rewrite Hgroups, (appendToGroup_groups exprs e types Hnd).
    2:{ apply Forall_forall. intros t Ht. apply Htypes. exact Ht. }
    destruct (decide (typeOf (expr e) ∈ types)) as [Hin|Hnin].
    + exists types. split; [exact Hnd|]. split; [|reflexivity].
      intros t. split.
      * intros Ht. apply Htypes in Ht as (c & Hc & Hty).
        exists c. split; [apply elem_of_app; auto|exact Hty].
      * intros (c & Hc & Hty). apply elem_of_app in Hc as [Hc|Hc].
        -- apply Htypes. eauto.
        -- apply list_elem_of_singleton in Hc. subst c. rewrite <- Hty. exact Hin.
    + exists (types ++ [typeOf (expr e)]). split; [|split].
      * apply NoDup_app. split; [exact Hnd|]. split.
        -- intros t Ht Hsingle. apply list_elem_of_singleton in Hsingle.
           subst t. auto.
        -- apply NoDup_singleton.
      * intros t. rewrite elem_of_app, list_elem_of_singleton. split.
        -- intros [Ht|Ht].
           ++ apply Htypes in Ht as (c & Hc & Hty).
              exists c. split; [apply elem_of_app; auto|exact Hty].
           ++ exists e. split; [|auto].
              apply elem_of_app. right. apply list_elem_of_singleton. reflexivity.
        -- intros (c & Hc & Hty). apply elem_of_app in Hc as [Hc|Hc].
           ++ left. apply Htypes. eauto.
           ++ apply list_elem_of_singleton in Hc. subst c. auto.
      * rewrite fmap_app. f_equal.
        -- apply list_fmap_ext. intros j t Ht. apply list_elem_of_lookup_2 in Ht.
           rewrite filter_type_snoc.
           destruct (decide (typeOf (expr e) = t)) as [Heq|_].
           ++ exfalso. apply Hnin. rewrite Heq. exact Ht.
           ++ rewrite app_nil_r. reflexivity.
        -- simpl. rewrite filter_type_snoc.
           destruct (decide (typeOf (expr e) = typeOf (expr e))) as [_|Hne];
             [|contradiction].
           destruct (filter (λ c, typeOf (expr c) = typeOf (expr e)) exprs)
             as [|c rest] eqn:E; [reflexivity|].
           exfalso. apply Hnin. apply Htypes. exists c.
           assert (Hc : c ∈ filter (λ c, typeOf (expr c) = typeOf (expr e)) exprs).
           { rewrite E. apply list_elem_of_here. }
           apply list_elem_of_filter in Hc as [Hty Hc]. auto.
Qed.

End Grouping.

(** * The rule on concrete plans *)

Section Scenarios.
Import Mock.
#[local] Existing Instance standard.

(** C2, witness: [t.a = 1 OR u.b = 2]; each branch has a lookup for its
    own table only, and the OR keeps both. *)
Lemma getIndexes_Or_single_branch_witness :
  ∃ result,
    getIndexes (Or (Comparison Equals t_a (int 1)) (Comparison Equals u_b (int 2)))
    = (Ok result, [Borrowed idx_a] ++ [Borrowed idx_u]) ∧
    ∀ table,
      (({[ "u" := {| lookup := LGet idx_u [VInt 2]; indexes := [idx_u] |} ]}
          : LookupMap) !! table = None →
       result !! table
       = ({[ "t" := {| lookup := LGet idx_a [VInt 1]; indexes := [idx_a] |} ]}
            : LookupMap) !! table) ∧
      (({[ "t" := {| lookup := LGet idx_a [VInt 1]; indexes := [idx_a] |} ]}
          : LookupMap) !! table = None →
       result !! table
       = ({[ "u" := {| lookup := LGet idx_u [VInt 2]; indexes := [idx_u] |} ]}
            : LookupMap) !! table) ∧
      (result !! table = None ↔
         ({[ "t" := {| lookup := LGet idx_a [VInt 1]; indexes := [idx_a] |} ]}
            : LookupMap) !! table = None ∧
         ({[ "u" := {| lookup := LGet idx_u [VInt 2]; indexes := [idx_u] |} ]}
            : LookupMap) !! table = None).
Proof.
  apply (getIndexes_Or_single_branch
           (Comparison Equals t_a (int 1)) (Comparison Equals u_b (int 2)));
    vm_compute; reflexivity.
Defined.

(** C2, counterexample: for [t.a = 1 OR u.b = 2] the right branch has no
    lookup for table [t], yet the map of the OR has one. *)
Lemma orDegrades_counterexample :
  ¬ orDegrades (Comparison Equals t_a (int 1)) (Comparison Equals u_b (int 2)).
Proof.
  intros Hclaim.
  specialize (Hclaim _ _ _ _ _ _ "t" eq_refl eq_refl eq_refl).
  assert (Hnone : ({[ "u" := {| lookup := LGet idx_u [VInt 2]; indexes := [idx_u] |} ]}
                     : LookupMap) !! "t" = None) by (vm_compute; reflexivity).
  specialize (Hclaim (or_intror Hnone)).
  vm_compute in Hclaim. discriminate.
Qed.

(** C5, witness: [t.a >= 10] on an ascend index. *)
Lemma getIndexes_Comparison_witness :
  getIndexes (Comparison GreaterThanOrEqual t_a (int 10))
  = (Ok {[ "t" := {| lookup := LAscendGreaterOrEqual idx_a [VInt 10];
                     indexes := [idx_a] |} ]},
     [Borrowed idx_a]).
Proof.
  rewrite (getIndexes_Comparison GreaterThanOrEqual t_a (int 10) t_a (int 10)
             idx_a (VInt 10));
    [reflexivity | left; reflexivity | reflexivity ..].
Defined.

(** C4, witness: [t.a IN (1, 2, "x", 3)] with a driver that refuses to
    merge the lookup of a string into lookups of numbers. *)
Lemma getIndexes_In_early_stop_witness :
  getIndexes (H := typed) (In t_a (Tuple [int 1; int 2; str "x"; int 3]))
  = (Ok ∅, [Borrowed idx_a; Released idx_a]).
Proof.
  apply (getIndexes_In_early_stop (H := typed) t_a
           (Tuple [int 1; int 2; str "x"; int 3]) idx_a
           (VInt 1) (VStr "x") [VInt 2] [VInt 3]
           (LGet idx_a [VInt 1]) (LGet idx_a [VStr "x"]) [LGet idx_a [VInt 2]]);
    try reflexivity.
  repeat constructor.
Defined.

(** C4, counterexample: for [t.a IN (1, 2, "x")] the first two lookups
    merge and the third does not merge into their union, yet the map
    returned does not hold [Union(Get(1), Get(2))] with the index kept. *)
Lemma inKeepsPartialUnion_counterexample :
  canMergeIndexes (H := typed) (LGet idx_a [VInt 1]) (LGet idx_a [VInt 2]) = true ∧
  canMergeIndexes (H := typed)
    (LUnion (LGet idx_a [VInt 1]) (LGet idx_a [VInt 2])) (LGet idx_a [VStr "x"])
  = false ∧
  ¬ inKeepsPartialUnion (H := typed) t_a (Tuple [int 1; int 2; str "x"]) idx_a
      (LUnion (LGet idx_a [VInt 1]) (LGet idx_a [VInt 2])).
Proof.
  split; [reflexivity|]. split; [reflexivity|].
  intros (result & t & Hrun & Hentry & _).
  vm_compute in Hrun. inversion Hrun; subst result.
  vm_compute in Hentry. discriminate.
Qed.

(** C1. Borrow conservation fails on [t.a = 1 OR t.b = 2] over table [t]
    with one index per column: the two lookups are not mergeable, the OR
    keeps the left entry and drops the right one without releasing its
    index; [idx_b] is borrowed once, never released, and not in the plan. *)
Theorem assignIndexes_Or_leaks :
  let e := Or (Comparison Equals t_a (int 1)) (Comparison Equals t_b (int 2)) in
  let kept := {| lookup := LGet idx_a [VInt 1]; indexes := [idx_a] |} in
  canMergeIndexes (LGet idx_a [VInt 1]) (LGet idx_b [VInt 2]) = false ∧
  assignIndexes (Filter e (TableNode "t" true))
  = (Ok (Filter e (indexable kept "t")), [Borrowed idx_a; Borrowed idx_b]) ∧
  borrows idx_b [Borrowed idx_a; Borrowed idx_b] = 1 ∧
  releases idx_b [Borrowed idx_a; Borrowed idx_b] = 0 ∧
  (idx_b ∉ embedded (Filter e (indexable kept "t"))) ∧
  ¬ conserved [Borrowed idx_a; Borrowed idx_b] (Filter e (indexable kept "t")).
Proof.
  intros e kept.
  split; [reflexivity|]. split; [vm_compute; reflexivity|].
  split; [reflexivity|]. split; [reflexivity|]. split.
  - simpl. intros Hin. apply list_elem_of_singleton in Hin. discriminate.
  - intros Hc. specialize (Hc idx_b). vm_compute in Hc. discriminate.
Qed.

(** The same two lookups under AND: [indexesIntersection] releases the
    index of the entry it drops. *)
Example getIndexes_And_releases :
  getIndexes (And (Comparison Equals t_a (int 1)) (Comparison Equals t_b (int 2)))
  = (Ok {[ "t" := {| lookup := LGet idx_a [VInt 1]; indexes := [idx_a] |} ]},
     [Borrowed idx_a; Borrowed idx_b; Released idx_b]).
Proof. vm_compute. reflexivity. Qed.

(** C6. BETWEEN on an index that is both ascend and descend, whose range
    lookups are mergeable but do not implement [sql.SetOperations]:
    [betweenIndexLookup] asserts the interface without checking, and the
    call panics instead of returning a map. *)
Theorem getIndexes_Between_panics :
  let asc := LAscendRange idx_a [VInt 1] [VInt 9] in
  let desc := LDescendRange idx_a [VInt 9] [VInt 1] in
  (isAscend idx_a && isDescend idx_a) = true ∧
  implMergeable (Collaborators := plainRanges) asc = true ∧
  IsMergeable (Collaborators := plainRanges) asc desc = true ∧
  implSetOperations (Collaborators := plainRanges) asc = false ∧
  canMergeIndexes (H := plainRanges) asc desc = false ∧
  getIndexes (H := plainRanges) (Between t_a (int 1) (int 9))
  = (Panic "interface conversion: sql.IndexLookup is not sql.SetOperations",
     [Borrowed idx_a; Released idx_a]).
Proof. repeat split; vm_compute; reflexivity. Qed.

(** C10. IN with an empty tuple on the right: the tuple passes the type
    test, and reading its first element panics. *)
Theorem getIndexes_In_empty_tuple_panics :
  Eval (Tuple []) = Ok (VTuple []) ∧
  getIndexes (In t_a (Tuple []))
  = (Panic "index out of range", [Borrowed idx_a; Released idx_a]).
Proof. split; vm_compute; reflexivity. Qed.

(** C3, counterexample: [t.a = 1 OR t.b IN 5].  The right branch fails
    (5 is not a tuple); the rule returns the error and no plan, and the
    index borrowed for the left branch is never released. *)
Lemma errorAtomic_counterexample :
  ¬ errorAtomic
      (Or (Comparison Equals t_a (int 1)) (In t_b (int 5))) (TableNode "t" true).
Proof.
  intros Hclaim.
  destruct (Hclaim (errInvalidInRightEvaluation (VInt 5))
              [Borrowed idx_a; Borrowed idx_b; Released idx_b])
    as (t & Hrun & _); [vm_compute; reflexivity|].
  vm_compute in Hrun. discriminate.
Qed.

Example assignIndexes_Or_error_leaks :
  assignIndexes
    (Filter (Or (Comparison Equals t_a (int 1)) (In t_b (int 5))) (TableNode "t" true))
  = (Err (errInvalidInRightEvaluation (VInt 5)),
     [Borrowed idx_a; Borrowed idx_b; Released idx_b]).
Proof. vm_compute. reflexivity. Qed.

(** C3, witness: a join of two filters; the first gives a lookup on [u],
    the second fails, and the index held for [u] is released. *)
Lemma assignIndexes_error_witness :
  ∃ gathered t,
    Inspect inspectFilter
      (Inner "CrossJoin"
         [Filter (Comparison Equals u_b (int 2)) (TableNode "u" true);
          Filter (In t_a (int 5)) (TableNode "t" true)])
      (None, None)
    = ((gathered, Some (errInvalidInRightEvaluation (VInt 5))), (Ok (), t)) ∧
    [Borrowed idx_u; Borrowed idx_a; Released idx_a; Released idx_u]
    = t ++ releaseUnused gathered ∧
    ∀ m table entry i,
      gathered = Some m → m !! table = Some entry → i ∈ indexes entry →
      Released i ∈ [Borrowed idx_u; Borrowed idx_a; Released idx_a; Released idx_u].
Proof.
  apply (assignIndexes_error
           (Inner "CrossJoin"
              [Filter (Comparison Equals u_b (int 2)) (TableNode "u" true);
               Filter (In t_a (int 5)) (TableNode "t" true)])).
  vm_compute. reflexivity.
Defined.

(** C8, witness: a filter over the join of [t] and [u]. *)
Lemma assignIndexes_idempotent_witness :
  let e := Comparison Equals t_a (int 1) in
  let wrapped :=
    Filter e (Inner "CrossJoin"
                [indexable {| lookup := LGet idx_a [VInt 1]; indexes := [idx_a] |} "t";
                 TableNode "u" true]) in
  (∃ t', assignIndexes wrapped = (Ok wrapped, t')) ∧
  (∀ index name (m : LookupMap),
     wrapTable (indexable index name) m = (indexable index name, m) ∧
     wrapTable (IndexableTable name) m = (IndexableTable name, m)).
Proof.
  apply (assignIndexes_idempotent
           (Filter (Comparison Equals t_a (int 1))
              (Inner "CrossJoin" [TableNode "t" true; TableNode "u" true]))
           _ [Borrowed idx_a]).
  - simpl. apply NoDup_cons. split; [|apply NoDup_singleton].
    intros Hin. apply list_elem_of_singleton in Hin. discriminate.
  - vm_compute. reflexivity.
Defined.

(** C8, counterexample: a filter over the join of [t] with itself.  The
    first run wraps the first [t] and takes the lookup out of the map, the
    second run finds the lookup again and wraps the second [t]. *)
Lemma idempotent_counterexample :
  ¬ idempotent
      (Filter (Comparison Equals t_a (int 1))
         (Inner "CrossJoin" [TableNode "t" true; TableNode "t" true])).
Proof.
  intros Hclaim.
  destruct (Hclaim
              (Filter (Comparison Equals t_a (int 1))
                 (Inner "CrossJoin"
                    [indexable get_a_1 "t";
                     TableNode "t" true]))
              [Borrowed idx_a]) as [t' Hrun]; [vm_compute; reflexivity|].
  vm_compute in Hrun. discriminate.
Qed.

Example assignIndexes_twice :
  let e := Comparison Equals t_a (int 1) in
  let kept := {| lookup := LGet idx_a [VInt 1]; indexes := [idx_a] |} in
  assignIndexes (Filter e (Inner "CrossJoin" [TableNode "t" true; TableNode "t" true]))
  = (Ok (Filter e (Inner "CrossJoin" [indexable kept "t"; TableNode "t" true])),
     [Borrowed idx_a]) ∧
  assignIndexes (Filter e (Inner "CrossJoin" [indexable kept "t"; TableNode "t" true]))
  = (Ok (Filter e (Inner "CrossJoin" [indexable kept "t"; indexable kept "t"])),
     [Borrowed idx_a]).
Proof. split; vm_compute; reflexivity. Qed.

(** [t.a IN 5] at the root: the error of [getIndexes] is the result. *)
Lemma assignIndexes_root_filter_error_witness :
  assignIndexes (Filter (In t_a (int 5)) (TableNode "t" true))
  = (Err (errInvalidInRightEvaluation (VInt 5)), [Borrowed idx_a; Released idx_a]).
Proof.
  apply (assignIndexes_root_filter_error (In t_a (int 5)) (TableNode "t" true));
    reflexivity.
Defined.

(** Composite AND: [t.a = 1 AND t.b = 2] with an index on [t.a, t.b]
    gives one composite point lookup; both conjuncts are used up by
    multi-column matching and no other index is borrowed. *)
Example getIndexes_And_composite :
  getMultiColumnIndexes (H := composite)
    [Comparison Equals t_a (int 1); Comparison Equals t_b (int 2)] ∅
  = (Ok (({[ "t" := get_ab_1_2 ]} : gmap string (@indexLookup composite)),
         {[ 0; 1 ]}),
     [Borrowed idx_ab]) ∧
  getIndexes (H := composite)
    (And (Comparison Equals t_a (int 1)) (Comparison Equals t_b (int 2)))
  = (Ok {[ "t" := get_ab_1_2 ]}, [Borrowed idx_ab]).
Proof. split; vm_compute; reflexivity. Qed.

(** [t.a IN 5]: 5 is not a tuple. *)
Lemma getIndexes_In_error_witness :
  getIndexes (In t_a (int 5))
  = (Err (errInvalidInRightEvaluation (VInt 5)), [Borrowed idx_a; Released idx_a]).
Proof.
  exact (getIndexes_In_error t_a (int 5) idx_a eq_refl eq_refl eq_refl).
Defined.

(** Conservation on [t.a = 1] over the join of [t] and [u]: [idx_a] is
    borrowed once and embedded once. *)
Lemma assignIndexes_conserves_witness :
  borrows idx_a [Borrowed idx_a]
  + occurrences idx_a
      (embedded (Filter (Comparison Equals t_a (int 1))
                   (Inner "CrossJoin" [TableNode "t" true; TableNode "u" true])))
  = releases idx_a [Borrowed idx_a]
    + occurrences idx_a
        (embedded (Filter (Comparison Equals t_a (int 1))
                     (Inner "CrossJoin" [indexable get_a_1 "t"; TableNode "u" true]))).
Proof.
  assert (Hfilters : Forall (λ e, balanced (getIndexes e))
                       [Comparison Equals t_a (int 1)]).
  { constructor; [|constructor]. exact (balanced_kept idx_a (LGet idx_a [VInt 1])). }
  exact (assignIndexes_conserves
           (Filter (Comparison Equals t_a (int 1))
              (Inner "CrossJoin" [TableNode "t" true; TableNode "u" true]))
           Hfilters idx_a).
Defined.

(** The books of [t.a IN (1, 2)]. *)
Lemma getIndexes_single_balanced_witness :
  borrows idx_a [Borrowed idx_a]
  = releases idx_a [Borrowed idx_a]
    + occurrences idx_a
        (held {[ "t" := {| lookup := LUnion (LGet idx_a [VInt 1]) (LGet idx_a [VInt 2]);
                           indexes := [idx_a] |} ]}).
Proof.
  exact (getIndexes_single_balanced (In t_a (Tuple [int 1; int 2])) eq_refl idx_a).
Defined.

(** The selection loop keeps the first of the longest candidates. *)
Example selectLongest_ties :
  selectLongest [[t_a]; [t_a; t_b]; [u_b; t_a]; [t_b]] = [t_a; t_b] ∧
  selectLongest [[]; []] = [] ∧
  selectLongest [] = [].
Proof. repeat split. Qed.

(** [t.a BETWEEN 1 AND 9] with the usual driver. *)
Lemma getIndexes_Between_witness :
  getIndexes (Between t_a (int 1) (int 9))
  = (Ok {[ "t" := {| lookup := LUnion (LAscendRange idx_a [VInt 1] [VInt 9])
                                      (LDescendRange idx_a [VInt 9] [VInt 1]);
                     indexes := [idx_a] |} ]},
     [Borrowed idx_a]).
Proof.
  rewrite (getIndexes_Between t_a (int 1) (int 9) idx_a (VInt 1) (VInt 9));
    reflexivity.
Defined.

(** [t.a = 1 OR t.a = 2]: both branches use [idx_a]; the lookups are
    united and the index is held twice. *)
Lemma getIndexes_Or_policy_witness :
  ∃ result,
    getIndexes (Or (Comparison Equals t_a (int 1)) (Comparison Equals t_a (int 2)))
    = (Ok result, [Borrowed idx_a] ++ [Borrowed idx_a]) ∧
    ∀ table,
      result !! table =
      match ({[ "t" := get_a_1 ]} : LookupMap) !! table,
            ({[ "t" := {| lookup := LGet idx_a [VInt 2]; indexes := [idx_a] |} ]}
               : LookupMap) !! table with
      | Some idx, Some idx2 =>
          if implMergeable (lookup idx) && IsMergeable (lookup idx) (lookup idx2)
             && implSetOperations (lookup idx)
          then Some {| lookup := Union (lookup idx) (lookup idx2);
                       indexes := indexes idx ++ indexes idx2 |}
          else Some idx
      | Some idx, None => Some idx
      | None, entry => entry
      end.
Proof.
  apply (getIndexes_Or_policy
           (Comparison Equals t_a (int 1)) (Comparison Equals t_a (int 2)));
    vm_compute; reflexivity.
Defined.

Example getIndexes_Or_same_index :
  getIndexes (Or (Comparison Equals t_a (int 1)) (Comparison Equals t_a (int 2)))
  = (Ok {[ "t" := {| lookup := LUnion (LGet idx_a [VInt 1]) (LGet idx_a [VInt 2]);
                     indexes := [idx_a; idx_a] |} ]},
     [Borrowed idx_a; Borrowed idx_a]).
Proof. vm_compute. reflexivity. Qed.

(** [t.a IN (1, 2, 3)]. *)
Lemma getIndexes_In_union_witness :
  getIndexes (In t_a (Tuple [int 1; int 2; int 3]))
  = (Ok {[ "t" := {| lookup := LUnion (LUnion (LGet idx_a [VInt 1]) (LGet idx_a [VInt 2]))
                                      (LGet idx_a [VInt 3]);
                     indexes := [idx_a] |} ]},
     [Borrowed idx_a]).
Proof.
  apply (getIndexes_In_union (H := standard) t_a (Tuple [int 1; int 2; int 3]) idx_a
           (VInt 1) [VInt 2; VInt 3]
           (LGet idx_a [VInt 1]) [LGet idx_a [VInt 2]; LGet idx_a [VInt 3]]);
    try reflexivity.
  repeat constructor.
Defined.

(** [1 = 1 AND (2 < 3 OR 4 IN (4, 5))] has no column. *)
Lemma getIndexes_evaluable_witness :
  getIndexes
    (And (Comparison Equals (int 1) (int 1))
         (Or (Comparison LessThan (int 2) (int 3))
             (In (int 4) (Tuple [int 4; int 5]))))
  = (Ok ∅, []).
Proof.
  apply (getIndexes_evaluable
           (And (Comparison Equals (int 1) (int 1))
                (Or (Comparison LessThan (int 2) (int 3))
                    (In (int 4) (Tuple [int 4; int 5]))))).
  reflexivity.
Defined.

(** A projection over a join, without a filter. *)
Lemma assignIndexes_no_filter_witness :
  assignIndexes (Inner "Project" [Inner "CrossJoin" [TableNode "t" true; TableNode "u" true]])
  = (Ok (Inner "Project" [Inner "CrossJoin" [TableNode "t" true; TableNode "u" true]]), []).
Proof.
  apply (assignIndexes_no_filter
           (Inner "Project" [Inner "CrossJoin" [TableNode "t" true; TableNode "u" true]])).
  right. reflexivity.
Defined.

(** [t.a = 1] over the join of [t] and [u]: one wrapper, for [t], with
    the point lookup. *)
Lemma assignIndexes_only_wraps_witness :
  let plan := Filter (Comparison Equals t_a (int 1))
                (Inner "CrossJoin" [TableNode "t" true; TableNode "u" true]) in
  let plan' := Filter (Comparison Equals t_a (int 1))
                 (Inner "CrossJoin" [indexable get_a_1 "t"; TableNode "u" true]) in
  unwrap plan' = unwrap plan ∧
  filterExpressions plan' = filterExpressions plan ∧
  Resolved plan' = Resolved plan ∧
  Forall (λ w, w ∈ wrappers plan ∨
               ∃ gathered,
                 (Inspect inspectFilter plan (None, None)).1.1 = Some gathered ∧
                 gathered !! w.1 = Some w.2)
         (wrappers plan').
Proof.
  apply (assignIndexes_only_wraps
           (Filter (Comparison Equals t_a (int 1))
              (Inner "CrossJoin" [TableNode "t" true; TableNode "u" true]))
           _ [Borrowed idx_a]).
  vm_compute. reflexivity.
Defined.

End Scenarios.
